(** * args.h: command-line flag lookup over the process argument vector

    A shallow embedding of [src/args.h] (the implementation part guarded by
    [ARGS_IMPLEMENTATION]) and the properties of its four queries
    [args_bool], [args_int], [args_float] and [args_string].

    The two statics [args__argc] and [args__argv] are a record that the
    queries thread through a small state monad.  An argument is the byte
    buffer that backs it, terminator included, so that the write
    [*value = 0] of [args_string] is a byte update of that buffer and a
    [const char *] result is an (argument, offset) pair read back from it. *)

From Stdlib Require Import ZArith Ascii String DecimalString.
From stdpp Require Import base tactics decidable option list strings.

Local Open Scope Z_scope.
Local Open Scope nat_scope.

(** ** Bytes and the libc string functions the header calls *)

(** A C string seen as a value: the bytes before its terminator. *)
Abbreviation cstring := (list ascii) (only parsing).

(** The storage behind one argument: every byte, terminators included. *)
Abbreviation buffer := (list ascii) (only parsing).

Definition NUL : ascii := "000"%char.
Definition DQUOTE : ascii := "034"%char.
Definition EQUALS : ascii := "="%char.
Definition BAR : ascii := "|"%char.

(** Value of a byte as [unsigned char]. *)
Definition code (c : ascii) : Z := Z.of_N (N_of_ascii c).

(** Literals: [lit "--flag"] is the C string constant. *)
Definition lit (s : string) : cstring := list_ascii_of_string s.

(** The string that starts at the head of a buffer: it ends at the first
    terminator (or where the storage ends). *)
Fixpoint cstr (b : buffer) : cstring :=
  match b with
  | [] => []
  | c :: b' => if decide (c = NUL) then [] else c :: cstr b'
  end.

Definition strlen (s : cstring) : nat := length s.

(** [strcmp]: only the sign of the result is specified by C; the bytes
    compare as [unsigned char]. *)
Fixpoint strcmp (s1 s2 : cstring) : Z :=
  match s1, s2 with
  | [], [] => 0
  | [], _ :: _ => -1
  | _ :: _, [] => 1
  | c1 :: t1, c2 :: t2 =>
      if (code c1 =? code c2)%Z then strcmp t1 t2 else (code c1 - code c2)%Z
  end.

(** [strncmp]: as [strcmp] over at most [n] bytes. *)
Fixpoint strncmp (s1 s2 : cstring) (n : nat) : Z :=
  match n with
  | 0 => 0
  | S n' =>
      match s1, s2 with
      | [], [] => 0
      | [], _ :: _ => -1
      | _ :: _, [] => 1
      | c1 :: t1, c2 :: t2 =>
          if (code c1 =? code c2)%Z then strncmp t1 t2 n'
          else (code c1 - code c2)%Z
      end
  end.

(** [tolower] in the C locale. *)
Definition tolower (c : ascii) : ascii :=
  if ((65 <=? code c) && (code c <=? 90))%Z
  then ascii_of_N (N_of_ascii c + 32) else c.

Definition lower (s : cstring) : cstring := map tolower s.

(** [strcasecmp]: [strcmp] on the lower-cased bytes. *)
Fixpoint strcasecmp (s1 s2 : cstring) : Z :=
  match s1, s2 with
  | [], [] => 0
  | [], _ :: _ => -1
  | _ :: _, [] => 1
  | c1 :: t1, c2 :: t2 =>
      if (code (tolower c1) =? code (tolower c2))%Z then strcasecmp t1 t2
      else (code (tolower c1) - code (tolower c2))%Z
  end.

(** [strchr s c] for [c] other than the terminator: offset of the first
    [c] in [s], [None] for a null pointer. *)
Fixpoint strchr (s : cstring) (c : ascii) : option nat :=
  match s with
  | [] => None
  | x :: s' => if decide (x = c) then Some 0 else S <$> strchr s' c
  end.

Definition isdigit (c : ascii) : bool := ((48 <=? code c) && (code c <=? 57))%Z.

Definition isspace (c : ascii) : bool :=
  ((code c =? 32) || ((9 <=? code c) && (code c <=? 13)))%Z.

(** ** [atoi]: blanks, an optional sign, then the decimal digits *)

Fixpoint skip_space (s : cstring) : cstring :=
  match s with
  | c :: s' => if isspace c then skip_space s' else s
  | [] => []
  end.

Fixpoint digits (s : cstring) (acc : Z) : Z :=
  match s with
  | c :: s' => if isdigit c then digits s' (acc * 10 + (code c - 48))%Z else acc
  | [] => acc
  end.

(** An [int] is 32 bits wide; a value out of range (undefined in C) is
    reduced to the 32-bit two's complement value. *)
Definition wrap_int (z : Z) : Z := ((z + 2 ^ 31) mod 2 ^ 32 - 2 ^ 31)%Z.

(** [strtol] saturates at the bounds of a 64-bit [long]. *)
Definition clamp_long (z : Z) : Z := Z.max (- 2 ^ 63) (Z.min z (2 ^ 63 - 1)).

(** [atoi (s)] is [(int) strtol (s, NULL, 10)], as glibc has it: the
    value saturates as a [long] and is then converted to [int]. *)
Definition atoi (s : cstring) : Z :=
  match skip_space s with
  | c :: t =>
      if decide (c = "-"%char) then wrap_int (clamp_long (- digits t 0))
      else if decide (c = "+"%char) then wrap_int (clamp_long (digits t 0))
      else wrap_int (clamp_long (digits (c :: t) 0))
  | [] => 0%Z
  end.

(** ** [strtok] and the alias tokens of a query string *)

(** Skip the leading delimiters ([strspn]). *)
Fixpoint skip_delim (d : ascii) (s : cstring) : cstring :=
  match s with
  | c :: s' => if decide (c = d) then skip_delim d s' else s
  | [] => []
  end.

(** Length of the run without delimiter ([strcspn]). *)
Fixpoint span_delim (d : ascii) (s : cstring) : nat :=
  match s with
  | c :: s' => if decide (c = d) then 0 else S (span_delim d s')
  | [] => 0
  end.

(** One call of [strtok] on the text left at its saved pointer: the token
    and the new saved text, or [None] for a null pointer. *)
Definition strtok (d : ascii) (saved : cstring) : option (cstring * cstring) :=
  match skip_delim d saved with
  | [] => None
  | s => let n := span_delim d s in Some (take n s, drop (S n) s)
  end.

(** The values [flag] takes in [while (flag) { ...; flag = strtok(NULL, "|"); }]. *)
Fixpoint tokens_from (fuel : nat) (saved : cstring) : list cstring :=
  match fuel with
  | 0 => []
  | S fuel' =>
      match strtok BAR saved with
      | None => []
      | Some (flag, saved') => flag :: tokens_from fuel' saved'
      end
  end.

(** [arg] is copied up to its terminator ([strcpy]) and split. *)
Definition tokens (arg : cstring) : list cstring :=
  let arg_copy := cstr arg in
  tokens_from (S (strlen arg_copy)) arg_copy.

(** ** The argument store and its monad *)

Record state := State { args__argc : nat; args__argv : list buffer }.

(** The statics before [args_parse]: zero-initialised. *)
Definition initial : state := State 0 [].

(** A [char *] into the argument vector: [args__argv[i] + k]. *)
Definition ptr := (nat * nat)%type.

Definition M (A : Type) : Type := state -> A * state.

Definition ret {A} (a : A) : M A := fun st => (a, st).

Definition bind {A B} (m : M A) (k : A -> M B) : M B :=
  fun st => k (fst (m st)) (snd (m st)).

Notation "x <- m ;; k" := (bind m (fun x => k))
  (at level 100, m at next level, k at level 200, right associativity).

(** The backing buffer of [args__argv[i]]. *)
Definition arg_buf (st : state) (i : nat) : buffer :=
  default [] (args__argv st !! i).

(** The C string read at a pointer. *)
Definition deref (st : state) (p : ptr) : cstring :=
  cstr (drop p.2 (arg_buf st p.1)).

Definition get_argc : M nat := fun st => (args__argc st, st).

Definition load (p : ptr) : M cstring := fun st => (deref st p, st).

(** [*p]: one byte (the terminator where the storage ends). *)
Definition peek (p : ptr) : M ascii :=
  fun st => (default NUL (arg_buf st p.1 !! p.2), st).

(** [*p = c]. *)
Definition poke (p : ptr) (c : ascii) : M unit :=
  fun st => (tt, State (args__argc st)
                       (alter (fun b => <[p.2 := c]> b) p.1 (args__argv st))).

Definition args_parse (argc : nat) (argv : list buffer) : M unit :=
  fun _ => (tt, State argc argv).

(** A loop whose body updates one local. *)
Fixpoint foldM {A B} (body : B -> A -> M A) (l : list B) (a : A) : M A :=
  match l with
  | [] => ret a
  | x :: l' => a' <- body x a ;; foldM body l' a'
  end.

(** A loop whose body may [return]: [Some v] leaves the function with [v]. *)
Fixpoint firstM {A B} (body : B -> M (option A)) (l : list B) : M (option A) :=
  match l with
  | [] => ret None
  | x :: l' =>
      r <- body x ;;
      match r with
      | Some v => ret (Some v)
      | None => firstM body l'
      end
  end.

(** The indices of [for (size_t i = 1; i < args__argc; ++i)]. *)
Definition indices (argc : nat) : list nat := seq 1 (argc - 1).

(** ** [args_bool] *)

Definition true_values : list cstring :=
  [lit "true"; lit "on"; lit "yes"; lit "y"; lit "1"].
Definition false_values : list cstring :=
  [lit "false"; lit "off"; lit "no"; lit "n"; lit "0"].

(** The body of the [for] loop of [args_bool] at index [i]. *)
Definition bool_body (flag : cstring) (i : nat) : M (option bool) :=
  a <- load (i, 0) ;;
  if (strcmp a flag =? 0)%Z then
    argc <- get_argc ;;
    if i + 1 <? argc then
      next_arg <- load (i + 1, 0) ;;
      if existsb (fun w => (strcasecmp next_arg w =? 0)%Z) true_values
      then ret (Some true)
      else if existsb (fun w => (strcasecmp next_arg w =? 0)%Z) false_values
      then ret (Some false)
      else ret (Some true)
    else ret (Some true)
  else if (strncmp a flag (strlen flag) =? 0)%Z then
    match strchr a EQUALS with
    | Some k =>
        value <- load (i, k + 1) ;;
        if existsb (fun w => (strcmp value w =? 0)%Z) true_values
        then ret (Some true)
        else if existsb (fun w => (strcmp value w =? 0)%Z) false_values
        then ret (Some false)
        else ret None
    | None => ret None
    end
  else ret None.

Definition args_bool (arg : cstring) : M bool :=
  argc <- get_argc ;;
  r <- firstM (fun flag => firstM (bool_body flag) (indices argc)) (tokens arg) ;;
  ret (default false r).

(** ** [args_int] *)

Definition int_body (flag : cstring) (i : nat) (result : Z) : M Z :=
  a <- load (i, 0) ;;
  if (strcmp a flag =? 0)%Z then
    argc <- get_argc ;;
    if i + 1 <? argc then
      c <- peek (i + 1, 0) ;;
      if isdigit c then
        next_arg <- load (i + 1, 0) ;; ret (atoi next_arg)
      else ret result
    else ret result
  else if (strncmp a flag (strlen flag) =? 0)%Z then
    match strchr a EQUALS with
    | Some k => value <- load (i, k + 1) ;; ret (atoi value)
    | None => ret result
    end
  else ret result.

Definition args_int (arg : cstring) : M Z :=
  argc <- get_argc ;;
  foldM (fun flag => foldM (int_body flag) (indices argc)) (tokens arg) 0%Z.

(** ** [args_float] *)

Section Float.
(** [double] and libc's [atof] are taken as given; [dzero] is the value
    of the initialiser [double result = 0]. *)
Context {double : Type} (dzero : double) (atof : cstring -> double).

Definition float_body (flag : cstring) (i : nat) (result : double) : M double :=
  a <- load (i, 0) ;;
  if (strcmp a flag =? 0)%Z then
    argc <- get_argc ;;
    if i + 1 <? argc then
      c <- peek (i + 1, 0) ;;
      if isdigit c then
        next_arg <- load (i + 1, 0) ;; ret (atof next_arg)
      else ret result
    else ret result
  else if (strncmp a flag (strlen flag) =? 0)%Z then
    match strchr a EQUALS with
    | Some k => value <- load (i, k + 1) ;; ret (atof value)
    | None => ret result
    end
  else ret result.

Definition args_float (arg : cstring) : M double :=
  argc <- get_argc ;;
  foldM (fun flag => foldM (float_body flag) (indices argc)) (tokens arg) dzero.
End Float.

(** ** [args_string] *)

(** Steps taken by [while (!( *value == DQUOTE || *value == 0)) value++]
    on the string read at [value]. *)
Fixpoint quote_run (s : cstring) : nat :=
  match s with
  | c :: s' => if decide (c = DQUOTE) then 0 else S (quote_run s')
  | [] => 0
  end.

Definition string_body (flag : cstring) (i : nat) (result : option ptr)
  : M (option ptr) :=
  a <- load (i, 0) ;;
  argc <- get_argc ;;
  if (strcmp a flag =? 0)%Z && (i + 1 <? argc) then ret (Some (i + 1, 0))
  else if (strncmp a flag (strlen flag) =? 0)%Z then
    match strchr a EQUALS with
    | Some k =>
        c <- peek (i, k + 1) ;;
        if decide (c = DQUOTE) then
          let start := (i, k + 2) in
          s <- load start ;;
          _ <- poke (i, k + 2 + quote_run s) NUL ;;
          ret (Some start)
        else ret (Some (i, k + 1))
    | None => ret result
    end
  else ret result.

Definition args_string (arg : cstring) : M (option ptr) :=
  argc <- get_argc ;;
  foldM (fun flag => foldM (string_body flag) (indices argc)) (tokens arg) None.

(** What the caller reads through the returned pointer. *)
Definition string_at (st : state) (r : option ptr) : option cstring :=
  deref st <$> r.

(** An argument vector as the C runtime lays it out: each argument in a
    buffer of its own, followed by its terminator. *)
Definition argv_of (l : list cstring) : list buffer := map (fun s => s ++ [NUL]) l.

Definition parsed (l : list cstring) : state :=
  snd (args_parse (length l) (argv_of l) initial).

(** ** Vocabulary of the statements *)

(** The text of argument [i] as the queries read it. *)
Definition arg_at (st : state) (i : nat) : cstring := deref st (i, 0).

(** The first byte of a string, as [s[0]] reads it. *)
Definition first_byte (s : cstring) : ascii := default NUL (head s).

(** The order in which the two nested loops visit their (flag, index)
    pairs: alias tokens in the order of the query string and, for each
    token, the arguments from index 1 upwards. *)
Definition scan_order (argc : nat) (arg : cstring) : list (cstring * nat) :=
  tokens arg ≫= fun flag => pair flag <$> indices argc.

(** An argument is matched by an alias token when it is the token itself
    or starts with it and holds an [=]. *)
Definition matches (a flag : cstring) : Prop :=
  a = flag \/ (flag `prefix_of` a /\ EQUALS ∈ a).

(** An argument decides [args_bool] for a token when it is the token
    itself or starts with it and the text after its first [=] is one of
    the ten words. *)
Definition decides (a flag : cstring) : Prop :=
  a = flag \/
  (flag `prefix_of` a /\
   match strchr a EQUALS with
   | Some k => drop (S k) a ∈ true_values ++ false_values
   | None => False
   end).

Definition unmatched (st : state) (q : cstring * nat) : Prop :=
  ~ matches (arg_at st q.2) q.1.

Definition undecided (st : state) (q : cstring * nat) : Prop :=
  ~ decides (arg_at st q.2) q.1.

(** A computation that leaves the statics and every buffer as they are. *)
Definition read_only {A} (m : M A) : Prop := forall st, snd (m st) = st.

(** The loops run over a stretch of the scan order. *)
Definition bool_scan (l : list (cstring * nat)) : M (option bool) :=
  firstM (fun q => bool_body q.1 q.2) l.

Definition int_scan (l : list (cstring * nat)) (result : Z) : M Z :=
  foldM (fun q => int_body q.1 q.2) l result.

Definition float_scan {double : Type} (atof : cstring -> double)
    (l : list (cstring * nat)) (result : double) : M double :=
  foldM (fun q => float_body atof q.1 q.2) l result.

Definition string_scan (l : list (cstring * nat)) (result : option ptr)
  : M (option ptr) :=
  foldM (fun q => string_body q.1 q.2) l result.

(** The edit of [args_string] on one buffer: when the byte after the
    first [=] is a quote, the byte where the run after that quote ends
    (the closing quote, or the terminator already there) becomes the
    terminator. *)
Definition strip (b : buffer) : buffer :=
  match strchr (cstr b) EQUALS with
  | Some k =>
      if decide (b !! S k = Some DQUOTE)
      then <[k + 2 + quote_run (cstr (drop (k + 2) b)) := NUL]> b
      else b
  | None => b
  end.

(** Whether [string_body] takes its [=] branch on a buffer. *)
Definition eq_branch (flag : cstring) (i argc : nat) (b : buffer) : bool :=
  negb (bool_decide (cstr b = flag) && (i + 1 <? argc))
  && bool_decide (flag `prefix_of` cstr b).

(** The pointer [string_body] assigns to [result] at index [i], if it
    assigns one. *)
Definition capture (flag : cstring) (i argc : nat) (b : buffer) : option ptr :=
  if bool_decide (cstr b = flag) && (i + 1 <? argc) then Some (i + 1, 0)
  else if bool_decide (flag `prefix_of` cstr b) then
    match strchr (cstr b) EQUALS with
    | Some k => if decide (b !! S k = Some DQUOTE) then Some (i, k + 2)
                else Some (i, k + 1)
    | None => None
    end
  else None.

(** The buffer [string_body] leaves at index [i]. *)
Definition edit (flag : cstring) (i argc : nat) (b : buffer) : buffer :=
  if eq_branch flag i argc b then strip b else b.

(** Where the run after the opening quote ends, for a buffer whose first
    [=] is at offset [k]. *)
Definition close_of (b : buffer) (k : nat) : nat :=
  k + 2 + quote_run (cstr (drop (k + 2) b)).

(** [s] is [st] after some of the edits of [args_string]: the same
    statics, and every buffer either as it was or stripped. *)
Definition evolved (st s : state) : Prop :=
  args__argc s = args__argc st /\
  length (args__argv s) = length (args__argv st) /\
  forall i, arg_buf s i = arg_buf st i \/ arg_buf s i = strip (arg_buf st i).

(** [s] is [st] after the iterations [l] of [args_string]: a buffer is
    as it was when no iteration took the [=] branch on it, and stripped
    when one did. *)
Definition scanned (l : list (cstring * nat)) (st s : state) : Prop :=
  args__argc s = args__argc st /\
  length (args__argv s) = length (args__argv st) /\
  forall i,
    (arg_buf s i = arg_buf st i /\
     forall flag, (flag, i) ∈ l ->
                  eq_branch flag i (args__argc st) (arg_buf st i) = false) \/
    (arg_buf s i = strip (arg_buf st i) /\
     exists flag, (flag, i) ∈ l /\
                  eq_branch flag i (args__argc st) (arg_buf st i) = true).

(** The pointer the loops of [args_string] would end with if every
    buffer stayed as it is in [st]. *)
Definition captured (st : state) (l : list (cstring * nat)) (result : option ptr)
  : option ptr :=
  foldl (fun r q => from_option Some r
                      (capture q.1 q.2 (args__argc st) (arg_buf st q.2)))
        result l.

(** ** [args_print] *)

Definition LF : ascii := "010"%char.

(** [%zu] and [%d]: the decimal digits of an index, of an [int]. *)
Definition fmt_zu (n : nat) : cstring := lit (NilEmpty.string_of_uint (Nat.to_uint n)).
Definition fmt_d (z : Z) : cstring := lit (NilZero.string_of_int (Z.to_int z)).

(** What [printf("Argument %zu: %s\n", i, args__argv[i])] appends to the
    bytes already written to the standard output. *)
Definition print_body (i : nat) (out : cstring) : M cstring :=
  s <- load (i, 0) ;;
  ret (out ++ lit "Argument " ++ fmt_zu i ++ lit ": " ++ s ++ [LF]).

(** [args_print]: the loop starts at index 0; the value is the output. *)
Definition args_print : M cstring :=
  argc <- get_argc ;;
  foldM print_body (seq 0 argc) [].

(** ** The program of [example.c] *)

(** The six [printf] calls of [show_help_message]. *)
Definition show_help_message : cstring :=
  lit "Usage: example [options]" ++ [LF] ++
  lit "Options:" ++ [LF] ++
  lit "  -h, --help                      Show this help message" ++ [LF] ++
  lit "  -i <number>, --int <number>     Print an integer" ++ [LF] ++
  lit "  -f <number>, --float <number>   Print a floating point number" ++ [LF] ++
  lit "  -s <string>, --string <string>  Print a string" ++ [LF].

Section Example.
(** Besides [atof]: the test [if (float_number)] and the format [%f]. *)
Context {double : Type} (dzero : double) (atof : cstring -> double)
        (nonzero : double -> bool) (fmt_f : double -> cstring).

(** The three conditional [printf] calls of [main]; the string is read
    through the returned pointer when it is printed. *)
Definition print_values (int_number : Z) (float_number : double)
    (string : option ptr) : M cstring :=
  s <- match string with
       | Some p => text <- load p ;; ret (lit "String: " ++ text ++ [LF])
       | None => ret []
       end ;;
  ret ((if (int_number =? 0)%Z then [] else lit "Int: " ++ fmt_d int_number ++ [LF])
       ++ (if nonzero float_number
           then lit "Float: " ++ fmt_f float_number ++ [LF] else [])
       ++ s).

(** [main]: the bytes written to the standard output and the exit status. *)
Definition main (argc : nat) (argv : list buffer) : M (cstring * Z) :=
  _ <- args_parse argc argv ;;
  show_help <- args_bool (lit "-h|--help") ;;
  int_number <- args_int (lit "-i|--int") ;;
  float_number <- args_float dzero atof (lit "-f|--float") ;;
  string <- args_string (lit "-s|--string") ;;
  if show_help then ret (show_help_message, 0%Z)
  else if negb (int_number =? 0)%Z || nonzero float_number
          || bool_decide (is_Some string)
  then out <- print_values int_number float_number string ;; ret (out, 0%Z)
  else ret ([], 0%Z).
End Example.

(** ** Vocabulary of the further statements *)

(** Alias tokens joined by the separator, as a caller writes a query. *)
Fixpoint join (fs : list cstring) : cstring :=
  match fs with
  | [] => []
  | [f] => f
  | f :: fs' => f ++ BAR :: join fs'
  end.

(** A spelling an alias can have: not empty, without separator and
    without terminator. *)
Definition alias (f : cstring) : Prop := f <> [] /\ (BAR ∉ f) /\ (NUL ∉ f).

(** Two stores that register the same number of arguments and hold the
    same bytes for the arguments the loops visit, indices 1 to
    [args__argc - 1]. *)
Definition same_args (st st' : state) : Prop :=
  args__argc st' = args__argc st /\
  forall i, 1 <= i < args__argc st -> arg_buf st' i = arg_buf st i.

(** Every registered argument has a buffer and a terminator in it. *)
Definition terminated (st : state) : Prop :=
  forall i, i < args__argc st ->
            exists b, args__argv st !! i = Some b /\ NUL ∈ b.

(** A result pointer of [args_string] that is safe to read: it names a
    scanned argument and an offset no further than the end of that
    argument, also once the argument is stripped. *)
Definition ptr_ok (s : state) (r : option ptr) : Prop :=
  forall i k, r = Some (i, k) ->
              1 <= i < args__argc s /\
              k <= length (cstr (strip (arg_buf s i))).

(** A number parser that, like [atoi] and [atof], reads no further than
    an [=] and reads nothing of a text that starts with a quote. *)
Definition stops_at_equals {double : Type} (atof : cstring -> double) : Prop :=
  (forall s q k, strchr s EQUALS = Some k -> k < q -> atof (take q s) = atof s) /\
  (forall t t', atof (DQUOTE :: t) = atof (DQUOTE :: t')).

(** * Properties *)

(** ** The libc models on a few inputs *)

Example tokens_example :
  tokens (lit "-h|--help||help|") = [lit "-h"; lit "--help"; lit "help"] /\
  tokens (lit "||") = [] /\
  tokens (lit "--name") = [lit "--name"].
Proof. repeat split. Qed.

Example atoi_examples :
  atoi (lit "42") = 42%Z /\ atoi (lit "  -17x") = (-17)%Z /\
  atoi (lit "+8") = 8%Z /\ atoi (lit "abc") = 0%Z /\ atoi (lit "") = 0%Z /\
  atoi (lit "4294967297") = 1%Z /\
  atoi (lit "9223372036854775808") = (-1)%Z /\
  atoi (lit "-9223372036854775809") = 0%Z.
Proof. repeat split. Qed.

Example compare_examples :
  strcmp (lit "--flag") (lit "--flag") = 0%Z /\
  (strcmp (lit "--flag=on") (lit "--flag") =? 0)%Z = false /\
  strncmp (lit "--flag=on") (lit "--flag") 6 = 0%Z /\
  strcasecmp (lit "TrUe") (lit "true") = 0%Z /\
  (strcmp (lit "TRUE") (lit "true") =? 0)%Z = false /\
  strchr (lit "--flag=on=off") EQUALS = Some 6.
Proof. repeat split. Qed.

(** ** The libc functions decide equality, prefix and equality up to case *)

Lemma code_inj c1 c2 : code c1 = code c2 -> c1 = c2.
Proof.
  unfold code. intros H. apply N2Z.inj in H.
  rewrite <- (ascii_N_embedding c1), <- (ascii_N_embedding c2). by rewrite H.
Qed.

Lemma code_eqb c1 c2 : (code c1 =? code c2)%Z = bool_decide (c1 = c2).
Proof.
  case_bool_decide as H.
  - subst. apply Z.eqb_refl.
  - apply Z.eqb_neq. intros E. by apply H, code_inj.
Qed.

Lemma strcmp_eqb s1 s2 : (strcmp s1 s2 =? 0)%Z = bool_decide (s1 = s2).
Proof.
  revert s2. induction s1 as [|c1 t1 IH]; intros [|c2 t2]; simpl; try done.
  rewrite code_eqb. case_bool_decide as Hc.
  - subst c2. rewrite IH. by repeat case_bool_decide; simplify_eq.
  - rewrite bool_decide_eq_false_2 by congruence.
    apply Z.eqb_neq. intros E. apply Hc, code_inj. lia.
Qed.

Lemma strncmp_eqb a f :
  (strncmp a f (strlen f) =? 0)%Z = bool_decide (f `prefix_of` a).
Proof.
  unfold strlen. revert a. induction f as [|c2 t2 IH]; intros a.
  - rewrite bool_decide_eq_true_2; [by destruct a | apply prefix_nil].
  - destruct a as [|c1 t1].
    + rewrite bool_decide_eq_false_2; [done | apply prefix_nil_not].
    + cbn [strncmp length]. rewrite code_eqb. case_bool_decide as Hc.
      * subst c2. rewrite IH.
        apply bool_decide_ext. split; [apply prefix_cons | apply prefix_cons_inv_2].
      * rewrite bool_decide_eq_false_2.
        -- apply Z.eqb_neq. intros E. apply Hc, code_inj. lia.
        -- intros Hp. by apply prefix_cons_inv_1 in Hp.
Qed.

Lemma strcasecmp_eqb s1 s2 :
  (strcasecmp s1 s2 =? 0)%Z = bool_decide (lower s1 = lower s2).
Proof.
  revert s2. induction s1 as [|c1 t1 IH]; intros [|c2 t2]; try done.
  cbn [strcasecmp lower map]. rewrite code_eqb. case_bool_decide as Hc.
  - rewrite IH, Hc. apply bool_decide_ext. unfold lower.
    split; [congruence | by intros [=]].
  - rewrite bool_decide_eq_false_2 by congruence.
    apply Z.eqb_neq. intros E. apply Hc, code_inj. lia.
Qed.

(** Membership in a word table, as the [for (j ...)] loops test it. *)
Lemma existsb_strcmp (value : cstring) (tbl : list cstring) :
  existsb (fun w => (strcmp value w =? 0)%Z) tbl = bool_decide (value ∈ tbl).
Proof.
  induction tbl as [|w tbl IH]; cbn [existsb].
  - symmetry. apply bool_decide_eq_false_2, not_elem_of_nil.
  - rewrite IH, strcmp_eqb.
    rewrite <- bool_decide_or. apply bool_decide_ext.
    rewrite elem_of_cons. tauto.
Qed.

Lemma existsb_strcasecmp (next_arg : cstring) (tbl : list cstring) :
  existsb (fun w => (strcasecmp next_arg w =? 0)%Z) tbl
  = bool_decide (lower next_arg ∈ lower <$> tbl).
Proof.
  induction tbl as [|w tbl IH]; cbn [existsb].
  - symmetry. apply bool_decide_eq_false_2, not_elem_of_nil.
  - rewrite IH, strcasecmp_eqb. rewrite fmap_cons.
    rewrite <- bool_decide_or. apply bool_decide_ext.
    rewrite elem_of_cons. tauto.
Qed.

(** The ten words are lower case already. *)
Lemma true_values_lower : lower <$> true_values = true_values.
Proof. reflexivity. Qed.

Lemma false_values_lower : lower <$> false_values = false_values.
Proof. reflexivity. Qed.

(** ** [strchr] and the text around the first [=] *)

Lemma strchr_Some s c k :
  strchr s c = Some k -> s !! k = Some c /\ c ∉ take k s.
Proof.
  revert k. induction s as [|x s IH]; intros k; simpl; [done|].
  case_decide as Hx.
  - intros [= <-]. subst. split; [done | apply not_elem_of_nil].
  - destruct (strchr s c) as [k'|] eqn:E; simpl; [|done].
    intros [= <-]. destruct (IH k' eq_refl) as [H1 H2]. split; [done|].
    simpl. rewrite not_elem_of_cons. split; [congruence | done].
Qed.

Lemma strchr_None s c : strchr s c = None <-> c ∉ s.
Proof.
  induction s as [|x s IH]; simpl.
  - split; [intros _; apply not_elem_of_nil | done].
  - case_decide as Hx.
    + subst. split; [done | intros H; exfalso; apply H; left].
    + destruct (strchr s c) eqn:E; simpl.
      * split; [done|]. intros H. exfalso.
        apply not_elem_of_cons in H as [_ H]. by apply IH in H.
      * split; [|done]. intros _. apply not_elem_of_cons.
        split; [congruence | by apply IH].
Qed.

(** ** [strtok]: the fuel of [tokens] is never used up *)

Lemma skip_delim_length d s : length (skip_delim d s) <= length s.
Proof. induction s as [|c s IH]; simpl; [lia|]. case_decide; simpl; lia. Qed.

Lemma strtok_shrinks d s flag saved :
  strtok d s = Some (flag, saved) -> length saved < length s.
Proof.
  unfold strtok. pose proof (skip_delim_length d s) as Hl.
  destruct (skip_delim d s) as [|c t] eqn:E; [done|].
  intros [= <- <-]. rewrite length_drop. simpl in *. lia.
Qed.

Lemma tokens_from_enough fuel1 fuel2 s :
  length s < fuel1 -> length s < fuel2 -> tokens_from fuel1 s = tokens_from fuel2 s.
Proof.
  revert fuel2 s. induction fuel1 as [|n IH]; intros [|m] s H1 H2; try lia.
  simpl. destruct (strtok BAR s) as [[flag saved]|] eqn:E; [|done].
  f_equal. apply strtok_shrinks in E. apply IH; lia.
Qed.

(** The loop equation of [while (flag)]: the next token, then the tokens
    of what [strtok] saved. *)
Lemma tokens_from_unfold s :
  tokens_from (S (length s)) s =
  match strtok BAR s with
  | None => []
  | Some (flag, saved) => flag :: tokens_from (S (length saved)) saved
  end.
Proof.
  simpl. destruct (strtok BAR s) as [[flag saved]|] eqn:E; [|done].
  f_equal. apply strtok_shrinks in E.
  apply (tokens_from_enough (length s) (S (length saved)) saved); lia.
Qed.

(** ** The monad: read-only computations and the shape of the loops *)

Create HintDb ro discriminated.

Lemma ro_ret {A} (a : A) : read_only (ret a).
Proof. done. Qed.

Lemma ro_bind {A B} (m : M A) (k : A -> M B) :
  read_only m -> (forall a, read_only (k a)) -> read_only (bind m k).
Proof. intros Hm Hk st. unfold bind. by rewrite Hk, Hm. Qed.

Lemma ro_get_argc : read_only get_argc.
Proof. done. Qed.

Lemma ro_load p : read_only (load p).
Proof. done. Qed.

Lemma ro_peek p : read_only (peek p).
Proof. done. Qed.

Lemma ro_foldM {A B} (body : B -> A -> M A) l a :
  (forall x a, read_only (body x a)) -> read_only (foldM body l a).
Proof.
  intros Hb. revert a. induction l as [|x l IH]; intros a; simpl.
  - apply ro_ret.
  - apply ro_bind; [apply Hb | apply IH].
Qed.

Lemma ro_firstM {A B} (body : B -> M (option A)) l :
  (forall x, read_only (body x)) -> read_only (firstM body l).
Proof.
  intros Hb. induction l as [|x l IH]; simpl.
  - apply ro_ret.
  - apply ro_bind; [apply Hb|]. intros [v|]; [apply ro_ret | apply IH].
Qed.

#[local] Hint Resolve ro_ret ro_get_argc ro_load ro_peek : ro.

(** Read-only by construction: binds of reads, split along the branches. *)
Ltac ro_cases :=
  repeat first
    [ progress intros
    | solve [auto with ro]
    | apply ro_bind
    | match goal with
      | |- read_only (if ?c then _ else _) => destruct c
      | |- read_only (match ?o with Some _ => _ | None => _ end) => destruct o
      end ].

Lemma bool_body_ro flag i : read_only (bool_body flag i).
Proof. unfold bool_body. ro_cases. Qed.

Lemma int_body_ro flag i result : read_only (int_body flag i result).
Proof. unfold int_body. ro_cases. Qed.

Lemma float_body_ro {double} (atof : cstring -> double) flag i result :
  read_only (float_body atof flag i result).
Proof. unfold float_body. ro_cases. Qed.

Lemma foldM_app {A B} (body : B -> A -> M A) l1 l2 a st :
  foldM body (l1 ++ l2) a st =
  foldM body l2 (fst (foldM body l1 a st)) (snd (foldM body l1 a st)).
Proof.
  revert a st. induction l1 as [|x l1 IH]; intros a st; simpl; [done|].
  unfold bind. apply IH.
Qed.

Lemma firstM_app {A B} (body : B -> M (option A)) l1 l2 st :
  firstM body (l1 ++ l2) st =
  match fst (firstM body l1 st) with
  | Some v => firstM body l1 st
  | None => firstM body l2 (snd (firstM body l1 st))
  end.
Proof.
  revert st. induction l1 as [|x l1 IH]; intros st; simpl; [done|].
  unfold bind. destruct (fst (body x st)) as [v|]; [done|]. apply IH.
Qed.

Lemma foldM_fmap {A B C} (g : C -> B) (body : B -> A -> M A) l a st :
  foldM body (g <$> l) a st = foldM (fun x => body (g x)) l a st.
Proof.
  revert a st. induction l as [|x l IH]; intros a st; simpl; [done|].
  unfold bind. apply IH.
Qed.

Lemma firstM_fmap {A B C} (g : C -> B) (body : B -> M (option A)) l st :
  firstM body (g <$> l) st = firstM (fun x => body (g x)) l st.
Proof.
  revert st. induction l as [|x l IH]; intros st; simpl; [done|].
  unfold bind. destruct (fst (body (g x) st)); [done | apply IH].
Qed.

(** Two nested loops are one loop over the scan order. *)
Lemma foldM_nested {A} (body : cstring -> nat -> A -> M A) fs (js : list nat) a st :
  foldM (fun flag => foldM (body flag) js) fs a st =
  foldM (fun q => body q.1 q.2) (fs ≫= fun flag => pair flag <$> js) a st.
Proof.
  revert a st. induction fs as [|f fs IH]; intros a st; [done|].
  rewrite bind_cons, foldM_app, foldM_fmap. simpl. unfold bind. apply IH.
Qed.

Lemma firstM_nested {A} (body : cstring -> nat -> M (option A)) fs (js : list nat) st :
  firstM (fun flag => firstM (body flag) js) fs st =
  firstM (fun q => body q.1 q.2) (fs ≫= fun flag => pair flag <$> js) st.
Proof.
  revert st. induction fs as [|f fs IH]; intros st; [done|].
  rewrite bind_cons, firstM_app, firstM_fmap. simpl. unfold bind, ret.
  change (fun x : nat => body f x) with (body f).
  destruct (firstM (body f) js st) as [[v|] st']; [done | apply IH].
Qed.

Lemma args_bool_scan arg st :
  args_bool arg st =
  (default false (fst (bool_scan (scan_order (args__argc st) arg) st)), st).
Proof.
  unfold args_bool, bind, get_argc, ret, bool_scan, scan_order. simpl.
  rewrite firstM_nested. f_equal.
  apply ro_firstM. intros q. apply bool_body_ro.
Qed.

Lemma args_int_scan arg st :
  args_int arg st = int_scan (scan_order (args__argc st) arg) 0%Z st.
Proof.
  unfold args_int, bind, get_argc, int_scan, scan_order. simpl.
  apply foldM_nested.
Qed.

Lemma args_float_scan {double} (dzero : double) atof arg st :
  args_float dzero atof arg st =
  float_scan atof (scan_order (args__argc st) arg) dzero st.
Proof.
  unfold args_float, bind, get_argc, float_scan, scan_order. simpl.
  apply (foldM_nested (float_body atof)).
Qed.

Lemma args_string_scan arg st :
  args_string arg st = string_scan (scan_order (args__argc st) arg) None st.
Proof.
  unfold args_string, bind, get_argc, string_scan, scan_order. simpl.
  apply foldM_nested.
Qed.

Lemma int_scan_ro l result : read_only (int_scan l result).
Proof. apply ro_foldM. intros q r. apply int_body_ro. Qed.

Lemma float_scan_ro {double} (atof : cstring -> double) l result :
  read_only (float_scan atof l result).
Proof. apply ro_foldM. intros q r. apply float_body_ro. Qed.

(** ** Reading strings and bytes out of the store *)

Lemma cstr_drop b k : k <= length (cstr b) -> cstr (drop k b) = drop k (cstr b).
Proof.
  revert k. induction b as [|c b IH]; intros k; simpl.
  - by rewrite drop_nil.
  - case_decide as Hc.
    + simpl. intros Hk. assert (k = 0) as -> by lia. simpl. by rewrite decide_True.
    + destruct k as [|k]; simpl; [by rewrite decide_False | intros; apply IH; lia].
Qed.

Lemma strchr_lt s c k : strchr s c = Some k -> k < length s.
Proof. intros [H _]%strchr_Some. by apply lookup_lt_Some in H. Qed.

Lemma deref_drop st i k :
  k <= length (arg_at st i) -> deref st (i, k) = drop k (arg_at st i).
Proof. unfold arg_at, deref. simpl. rewrite drop_0. apply cstr_drop. Qed.

Lemma cstr_head b : default NUL (b !! 0) = first_byte (cstr b).
Proof.
  unfold first_byte. destruct b as [|c b]; simpl; [done|].
  case_decide; simpl; congruence.
Qed.

Lemma peek_first st i : fst (peek (i, 0) st) = first_byte (arg_at st i).
Proof. unfold peek, arg_at, deref. simpl. rewrite drop_0. apply cstr_head. Qed.

(** ** What one iteration of each read-only loop computes *)

Lemma bool_body_fst flag i st :
  fst (bool_body flag i st) =
  let a := arg_at st i in
  if bool_decide (a = flag) then
    if i + 1 <? args__argc st then
      let next_arg := arg_at st (i + 1) in
      if bool_decide (lower next_arg ∈ true_values) then Some true
      else if bool_decide (lower next_arg ∈ false_values) then Some false
      else Some true
    else Some true
  else if bool_decide (flag `prefix_of` a) then
    match strchr a EQUALS with
    | Some k =>
        let value := drop (S k) a in
        if bool_decide (value ∈ true_values) then Some true
        else if bool_decide (value ∈ false_values) then Some false
        else None
    | None => None
    end
  else None.
Proof.
  unfold bool_body, bind, load, get_argc. cbn [fst snd].
  fold (arg_at st i). fold (arg_at st (i + 1)).
  rewrite strcmp_eqb, strncmp_eqb.
  destruct (bool_decide (arg_at st i = flag)).
  - destruct (i + 1 <? args__argc st); [|done].
    rewrite !existsb_strcasecmp, true_values_lower, false_values_lower.
    by repeat case_bool_decide.
  - destruct (bool_decide (flag `prefix_of` arg_at st i)); [|done].
    destruct (strchr (arg_at st i) EQUALS) as [k|] eqn:Ek; [|done].
    rewrite !existsb_strcmp, Nat.add_1_r.
    rewrite deref_drop by (apply strchr_lt in Ek; lia).
    by repeat case_bool_decide.
Qed.

Lemma int_body_fst flag i result st :
  fst (int_body flag i result st) =
  let a := arg_at st i in
  if bool_decide (a = flag) then
    if (i + 1 <? args__argc st) && isdigit (first_byte (arg_at st (i + 1)))
    then atoi (arg_at st (i + 1)) else result
  else if bool_decide (flag `prefix_of` a) then
    match strchr a EQUALS with
    | Some k => atoi (drop (S k) a)
    | None => result
    end
  else result.
Proof.
  unfold int_body, bind, load, get_argc. cbn [fst snd].
  fold (arg_at st i). fold (arg_at st (i + 1)).
  rewrite strcmp_eqb, strncmp_eqb.
  destruct (bool_decide (arg_at st i = flag)).
  - destruct (i + 1 <? args__argc st); [|done].
    cbn beta. rewrite peek_first. cbn [andb].
    by destruct (isdigit _).
  - destruct (bool_decide (flag `prefix_of` arg_at st i)); [|done].
    destruct (strchr (arg_at st i) EQUALS) as [k|] eqn:Ek; [|done].
    rewrite Nat.add_1_r. cbn [ret fst].
    by rewrite deref_drop by (apply strchr_lt in Ek; lia).
Qed.

Lemma float_body_fst {double} (atof : cstring -> double) flag i result st :
  fst (float_body atof flag i result st) =
  let a := arg_at st i in
  if bool_decide (a = flag) then
    if (i + 1 <? args__argc st) && isdigit (first_byte (arg_at st (i + 1)))
    then atof (arg_at st (i + 1)) else result
  else if bool_decide (flag `prefix_of` a) then
    match strchr a EQUALS with
    | Some k => atof (drop (S k) a)
    | None => result
    end
  else result.
Proof.
  unfold float_body, bind, load, get_argc. cbn [fst snd].
  fold (arg_at st i). fold (arg_at st (i + 1)).
  rewrite strcmp_eqb, strncmp_eqb.
  destruct (bool_decide (arg_at st i = flag)).
  - destruct (i + 1 <? args__argc st); [|done].
    cbn beta. rewrite peek_first. cbn [andb].
    by destruct (isdigit _).
  - destruct (bool_decide (flag `prefix_of` arg_at st i)); [|done].
    destruct (strchr (arg_at st i) EQUALS) as [k|] eqn:Ek; [|done].
    rewrite Nat.add_1_r. cbn [ret fst].
    by rewrite deref_drop by (apply strchr_lt in Ek; lia).
Qed.

(** ** Loops over read-only bodies: who has the last word, who the first *)

Lemma foldM_ro_idle {A B} (body : B -> A -> M A) l a st :
  (forall x a, read_only (body x a)) ->
  Forall (fun x => forall a, fst (body x a st) = a) l ->
  foldM body l a st = (a, st).
Proof.
  intros Hro Hl. revert a. induction Hl as [|x l Hx _ IH]; intros a; [done|].
  simpl. unfold bind. by rewrite Hro, Hx, IH.
Qed.

Lemma foldM_ro_last {A B} (body : B -> A -> M A) l1 q l2 a st :
  (forall x a, read_only (body x a)) ->
  Forall (fun x => forall a, fst (body x a st) = a) l2 ->
  foldM body (l1 ++ q :: l2) a st = (fst (body q (fst (foldM body l1 a st)) st), st).
Proof.
  intros Hro Hl2. rewrite foldM_app. simpl. unfold bind.
  rewrite (ro_foldM body l1 a Hro st), Hro. by apply foldM_ro_idle.
Qed.

Lemma firstM_ro_idle {A B} (body : B -> M (option A)) l st :
  (forall x, read_only (body x)) ->
  Forall (fun x => fst (body x st) = None) l ->
  firstM body l st = (None, st).
Proof.
  intros Hro Hl. induction Hl as [|x l Hx _ IH]; [done|].
  simpl. unfold bind. by rewrite Hro, Hx, IH.
Qed.

Lemma firstM_ro_first {A B} (body : B -> M (option A)) l1 q l2 st :
  (forall x, read_only (body x)) ->
  Forall (fun x => fst (body x st) = None) l1 ->
  firstM body (l1 ++ q :: l2) st =
  match fst (body q st) with
  | Some v => (Some v, st)
  | None => firstM body l2 st
  end.
Proof.
  intros Hro Hl1. rewrite firstM_app, (firstM_ro_idle body l1 st Hro Hl1).
  simpl. unfold bind. rewrite Hro. by destruct (fst (body q st)).
Qed.

(** ** Arguments that do not match, arguments that do not decide *)

Lemma elem_of_strchr a c : c ∈ a <-> is_Some (strchr a c).
Proof.
  destruct (strchr a c) as [k|] eqn:E.
  - split; [by eauto|]. intros _. apply strchr_Some in E as [E _].
    by apply list_elem_of_lookup_2 in E.
  - split; [|by intros [? ?]]. intros H. by apply strchr_None in E.
Qed.

Lemma undecided_None st q : undecided st q <-> fst (bool_body q.1 q.2 st) = None.
Proof.
  unfold undecided, decides. rewrite bool_body_fst. cbn zeta.
  set (a := arg_at st q.2). set (flag := q.1).
  case_bool_decide as Ha.
  - split; [intros H; exfalso; apply H; by left|].
    by repeat case_match.
  - case_bool_decide as Hp; [|split; [done | intros _ [?|[? _]]; done]].
    destruct (strchr a EQUALS) as [k|]; [|split; [done | intros _ [?|[_ []]]; done]].
    rewrite elem_of_app.
    repeat case_bool_decide; split; try done.
    + intros Hn. exfalso. apply Hn. tauto.
    + intros Hn. exfalso. apply Hn. tauto.
    + intros _ [?|[_ [?|?]]]; done.
Qed.

Lemma unmatched_int st q result :
  unmatched st q -> fst (int_body q.1 q.2 result st) = result.
Proof.
  unfold unmatched, matches. rewrite int_body_fst. cbn zeta. intros H.
  rewrite bool_decide_eq_false_2 by tauto.
  case_bool_decide as Hp; [|done].
  destruct (strchr _ EQUALS) as [k|] eqn:E; [|done].
  exfalso. apply H. right. split; [done|]. apply elem_of_strchr. by eauto.
Qed.

Lemma unmatched_float {double} (atof : cstring -> double) st q result :
  unmatched st q -> fst (float_body atof q.1 q.2 result st) = result.
Proof.
  unfold unmatched, matches. rewrite float_body_fst. cbn zeta. intros H.
  rewrite bool_decide_eq_false_2 by tauto.
  case_bool_decide as Hp; [|done].
  destruct (strchr _ EQUALS) as [k|] eqn:E; [|done].
  exfalso. apply H. right. split; [done|]. apply elem_of_strchr. by eauto.
Qed.

Lemma unmatched_undecided st q : unmatched st q -> undecided st q.
Proof.
  unfold unmatched, undecided, matches, decides. intros H [?|[Hp Hk]]; [tauto|].
  apply H. right. split; [done|]. apply elem_of_strchr.
  by destruct (strchr _ EQUALS); eauto.
Qed.

(** [args_bool]: the first position of the scan order that decides, decides. *)
Lemma args_bool_first arg st before q after :
  scan_order (args__argc st) arg = before ++ q :: after ->
  Forall (undecided st) before ->
  args_bool arg st =
  (default false (match fst (bool_body q.1 q.2 st) with
                  | Some v => Some v
                  | None => fst (bool_scan after st)
                  end), st).
Proof.
  intros Hs Hb. rewrite args_bool_scan, Hs. unfold bool_scan.
  rewrite (firstM_ro_first (fun q => bool_body q.1 q.2)).
  - by destruct (fst (bool_body q.1 q.2 st)).
  - intros x. apply bool_body_ro.
  - eapply Forall_impl; [exact Hb|]. intros x. by apply undecided_None.
Qed.

Lemma args_bool_idle arg st :
  Forall (undecided st) (scan_order (args__argc st) arg) ->
  args_bool arg st = (false, st).
Proof.
  intros H. rewrite args_bool_scan. unfold bool_scan.
  rewrite (firstM_ro_idle (fun q => bool_body q.1 q.2)); [done| |].
  - intros x. apply bool_body_ro.
  - eapply Forall_impl; [exact H|]. intros x. by apply undecided_None.
Qed.

(** [args_int], [args_float]: the last position that matches has the
    last word. *)
Lemma args_int_last arg st before q after :
  scan_order (args__argc st) arg = before ++ q :: after ->
  Forall (unmatched st) after ->
  args_int arg st = (fst (int_body q.1 q.2 (fst (int_scan before 0%Z st)) st), st).
Proof.
  intros Hs Ha. rewrite args_int_scan, Hs. unfold int_scan.
  apply (foldM_ro_last (fun q => int_body q.1 q.2)).
  - intros x a. apply int_body_ro.
  - eapply Forall_impl; [exact Ha|]. intros x Hx a. by apply unmatched_int.
Qed.

Lemma args_float_last {double} (dzero : double) atof arg st before q after :
  scan_order (args__argc st) arg = before ++ q :: after ->
  Forall (unmatched st) after ->
  args_float dzero atof arg st =
  (fst (float_body atof q.1 q.2 (fst (float_scan atof before dzero st)) st), st).
Proof.
  intros Hs Ha. rewrite args_float_scan, Hs. unfold float_scan.
  apply (foldM_ro_last (fun q => float_body atof q.1 q.2)).
  - intros x a. apply float_body_ro.
  - eapply Forall_impl; [exact Ha|]. intros x Hx a. by apply unmatched_float.
Qed.

Lemma args_int_idle arg st :
  Forall (unmatched st) (scan_order (args__argc st) arg) ->
  args_int arg st = (0%Z, st).
Proof.
  intros H. rewrite args_int_scan. unfold int_scan.
  apply (foldM_ro_idle (fun q => int_body q.1 q.2)).
  - intros x a. apply int_body_ro.
  - eapply Forall_impl; [exact H|]. intros x Hx a. by apply unmatched_int.
Qed.

Lemma args_float_idle {double} (dzero : double) atof arg st :
  Forall (unmatched st) (scan_order (args__argc st) arg) ->
  args_float dzero atof arg st = (dzero, st).
Proof.
  intros H. rewrite args_float_scan. unfold float_scan.
  apply (foldM_ro_idle (fun q => float_body atof q.1 q.2)).
  - intros x a. apply float_body_ro.
  - eapply Forall_impl; [exact H|]. intros x Hx a. by apply unmatched_float.
Qed.

(** ** The quote-stripping edit on one buffer *)

Lemma quote_run_le s : quote_run s <= length s.
Proof. induction s as [|c s IH]; simpl; [lia|]. case_decide; simpl; lia. Qed.

Lemma quote_run_take s : quote_run (take (quote_run s) s) = quote_run s.
Proof.
  induction s as [|c s IH]; simpl; [done|].
  case_decide as Hc; simpl; [done|]. by rewrite decide_False, IH.
Qed.

Lemma quote_run_stop s : s !! quote_run s = Some DQUOTE \/ s !! quote_run s = None.
Proof.
  induction s as [|c s IH]; simpl; [by right|].
  case_decide as Hc; simpl; [left; congruence | done].
Qed.


Lemma cstr_length_le b : length (cstr b) <= length b.
Proof. induction b as [|c b IH]; simpl; [lia|]. case_decide; simpl; lia. Qed.

Lemma cstr_lookup_lt b j : j < length (cstr b) -> b !! j = cstr b !! j.
Proof.
  revert j. induction b as [|c b IH]; intros j; simpl; [lia|].
  case_decide as Hc; simpl; [lia|].
  destruct j as [|j]; simpl; [done | intros; apply IH; lia].
Qed.

Lemma cstr_lookup_end b :
  b !! length (cstr b) = Some NUL \/ b !! length (cstr b) = None.
Proof.
  induction b as [|c b IH]; simpl; [by right|].
  case_decide as Hc; simpl; [left; congruence | done].
Qed.


(** A byte that is not the terminator and lies no further than the end
    of the string lies inside it. *)
Lemma cstr_lookup_inside b j c :
  j <= length (cstr b) -> b !! j = Some c -> c <> NUL -> cstr b !! j = Some c.
Proof.
  intros Hj Hb Hc. destruct (decide (j = length (cstr b))) as [->|Hne].
  - destruct (cstr_lookup_end b) as [E|E]; congruence.
  - rewrite <- cstr_lookup_lt by lia. done.
Qed.

Lemma cstr_insert_NUL b q :
  q <= length (cstr b) -> cstr (<[q := NUL]> b) = take q (cstr b).
Proof.
  revert q. induction b as [|c b IH]; intros q; simpl; [by rewrite take_nil|].
  case_decide as Hc; simpl.
  - intros Hq. assert (q = 0) as -> by lia. by subst c.
  - destruct q as [|q]; simpl; [done|].
    intros Hq. rewrite decide_False by done. f_equal. apply IH. lia.
Qed.

Lemma strchr_take s c k q :
  strchr s c = Some k -> k < q -> strchr (take q s) c = Some k.
Proof.
  revert k q. induction s as [|x s IH]; intros k q; simpl; [done|].
  case_decide as Hx.
  - intros [= <-] Hq. destruct q; [lia|]. simpl. by rewrite decide_True.
  - destruct (strchr s c) as [k'|] eqn:E; simpl; [|done].
    intros [= <-] Hq. destruct q as [|q]; [lia|]. simpl.
    rewrite decide_False by done. by rewrite (IH k' q eq_refl) by lia.
Qed.

Lemma close_of_bounds b k :
  strchr (cstr b) EQUALS = Some k -> b !! S k = Some DQUOTE ->
  k + 2 <= close_of b k <= length (cstr b).
Proof.
  intros Hk Hq. unfold close_of.
  assert (S k < length (cstr b)) as Hlt.
  { apply strchr_lt in Hk. eapply lookup_lt_Some, (cstr_lookup_inside b (S k));
      [lia | done | done]. }
  pose proof (quote_run_le (cstr (drop (k + 2) b))) as Hr.
  assert (length (cstr (drop (k + 2) b)) = length (cstr b) - (k + 2)) as Hl
    by (rewrite cstr_drop by lia; apply length_drop).
  lia.
Qed.

Lemma strip_quoted b k :
  strchr (cstr b) EQUALS = Some k -> b !! S k = Some DQUOTE ->
  strip b = <[close_of b k := NUL]> b.
Proof. intros Hk Hq. unfold strip, close_of. by rewrite Hk, decide_True. Qed.

Lemma strip_plain b :
  (forall k, strchr (cstr b) EQUALS = Some k -> b !! S k <> Some DQUOTE) ->
  strip b = b.
Proof.
  intros H. unfold strip. destruct (strchr (cstr b) EQUALS) as [k|]; [|done].
  by rewrite decide_False by eauto.
Qed.

Lemma cstr_strip b k :
  strchr (cstr b) EQUALS = Some k -> b !! S k = Some DQUOTE ->
  cstr (strip b) = take (close_of b k) (cstr b).
Proof.
  intros Hk Hq. rewrite (strip_quoted b k Hk Hq).
  apply cstr_insert_NUL. by apply close_of_bounds.
Qed.


Lemma strip_prefix b : cstr (strip b) `prefix_of` cstr b.
Proof.
  unfold strip. destruct (strchr (cstr b) EQUALS) as [k|] eqn:Hk; [|done].
  case_decide as Hq; [|done].
  change (<[_ := NUL]> b) with (<[close_of b k := NUL]> b).
  rewrite cstr_insert_NUL by (by apply close_of_bounds). apply prefix_take.
Qed.

Lemma strip_idemp b : strip (strip b) = strip b.
Proof.
  destruct (strchr (cstr b) EQUALS) as [k|] eqn:Hk;
    [|unfold strip at 2; by rewrite Hk].
  destruct (decide (b !! S k = Some DQUOTE)) as [Hq|Hq];
    [|unfold strip at 2; by rewrite Hk, decide_False].
  pose proof (close_of_bounds b k Hk Hq) as Hb.
  assert (strchr (cstr (strip b)) EQUALS = Some k) as Hk'.
  { rewrite (cstr_strip b k Hk Hq). apply strchr_take; [done | lia]. }
  assert (strip b !! S k = Some DQUOTE) as Hq'.
  { rewrite (strip_quoted b k Hk Hq), list_lookup_insert_ne by lia. done. }
  rewrite (strip_quoted (strip b) k Hk' Hq').
  assert (close_of (strip b) k = close_of b k) as ->.
  { unfold close_of. f_equal.
    rewrite (strip_quoted b k Hk Hq). unfold close_of.
    rewrite drop_insert_ge by lia.
    replace (k + 2 + quote_run (cstr (drop (k + 2) b)) - (k + 2))
      with (quote_run (cstr (drop (k + 2) b))) by lia.
    rewrite cstr_insert_NUL by apply quote_run_le.
    apply quote_run_take. }
  rewrite (strip_quoted b k Hk Hq). apply list_insert_insert_eq.
Qed.

(** ** One iteration of the loop of [args_string] *)

Lemma alter_arg_buf (f : buffer -> buffer) st i :
  alter f i (args__argv st) = alter (fun _ => f (arg_buf st i)) i (args__argv st).
Proof.
  apply list_alter_ext; [|done]. intros x Hx. unfold arg_buf. by rewrite Hx.
Qed.

Lemma alter_keep st i :
  alter (fun _ => arg_buf st i) i (args__argv st) = args__argv st.
Proof.
  rewrite <- (alter_arg_buf (fun b => b)). by apply list_alter_id.
Qed.

Lemma peek_quote (b : buffer) (j : nat) :
  default NUL (b !! j) = DQUOTE <-> b !! j = Some DQUOTE.
Proof. destruct (b !! j) as [c|]; simpl; [split; congruence | done]. Qed.

Lemma string_body_run flag i result st :
  string_body flag i result st =
  (from_option Some result (capture flag i (args__argc st) (arg_buf st i)),
   State (args__argc st)
         (alter (edit flag i (args__argc st)) i (args__argv st))).
Proof.
  unfold string_body, bind, load, get_argc, peek, poke, ret, deref.
  cbn [fst snd]. rewrite drop_0, strcmp_eqb, strncmp_eqb.
  rewrite (alter_arg_buf (edit _ _ _)). unfold capture, edit, eq_branch.
  set (b := arg_buf st i).
  destruct (bool_decide (cstr b = flag) && (i + 1 <? args__argc st)) eqn:E1.
  { cbn [negb andb]. subst b. rewrite alter_keep. by destruct st. }
  destruct (bool_decide (flag `prefix_of` cstr b)) eqn:E2; cbn [negb andb];
    [|subst b; rewrite alter_keep; by destruct st].
  unfold strip. destruct (strchr (cstr b) EQUALS) as [k|] eqn:Ek;
    [|subst b; rewrite alter_keep; by destruct st].
  rewrite Nat.add_1_r.
  destruct (decide (b !! S k = Some DQUOTE)) as [Hq|Hq].
  - rewrite decide_True by (by apply peek_quote).
    cbn [fst snd from_option]. f_equal. f_equal.
    by rewrite (alter_arg_buf (fun b0 => <[_ := NUL]> b0)).
  - rewrite decide_False by (by rewrite peek_quote).
    cbn [fst snd from_option]. subst b. rewrite alter_keep. by destruct st.
Qed.

Lemma arg_buf_edit flag i argc st j :
  arg_buf (State argc (alter (edit flag i argc) i (args__argv st))) j =
  if decide (j = i) then edit flag i argc (arg_buf st i) else arg_buf st j.
Proof.
  unfold arg_buf. cbn [args__argv]. case_decide as Hj.
  - subst j. rewrite list_lookup_alter_eq.
    destruct (args__argv st !! i) as [b|]; [done|]. simpl.
    unfold edit, eq_branch, strip. simpl. by repeat case_match.
  - by rewrite list_lookup_alter_ne.
Qed.

Lemma edit_cases flag i argc b :
  edit flag i argc b = b \/
  (eq_branch flag i argc b = true /\ edit flag i argc b = strip b).
Proof. unfold edit. destruct (eq_branch flag i argc b); [by right | by left]. Qed.

(** ** The store along the scan of [args_string] *)

Lemma evolved_refl st : evolved st st.
Proof. repeat split. intros i. by left. Qed.

Lemma evolved_step st s flag i result :
  evolved st s -> evolved st (snd (string_body flag i result s)).
Proof.
  intros (Hc & Hl & Hb). rewrite string_body_run. cbn [snd].
  split; [done|]. split; [cbn [args__argv]; by rewrite length_alter|].
  intros j. rewrite arg_buf_edit. case_decide as Hj; [subst j | apply Hb].
  destruct (edit_cases flag i (args__argc s) (arg_buf s i)) as [->|[_ ->]];
    [apply Hb|].
  destruct (Hb i) as [->| ->]; [by right | right; apply strip_idemp].
Qed.

Lemma string_scan_cons q l result s :
  string_scan (q :: l) result s =
  string_scan l (fst (string_body q.1 q.2 result s))
                (snd (string_body q.1 q.2 result s)).
Proof. done. Qed.

Lemma evolved_scan st s l result :
  evolved st s -> evolved st (snd (string_scan l result s)).
Proof.
  revert s result. induction l as [|q l IH]; intros s result He; [done|].
  rewrite string_scan_cons. by apply IH, evolved_step.
Qed.

Lemma scanned_nil st : scanned [] st st.
Proof.
  repeat split. intros i. left. split; [done|]. intros flag H.
  by apply elem_of_nil in H.
Qed.

Lemma scanned_step l st s flag i result :
  scanned l st s ->
  scanned (l ++ [(flag, i)]) st (snd (string_body flag i result s)).
Proof.
  intros (Hc & Hl & Hb). rewrite string_body_run. cbn [snd].
  split; [done|]. split; [cbn [args__argv]; by rewrite length_alter|].
  intros j. rewrite arg_buf_edit, Hc. case_decide as Hj.
  - subst j. destruct (Hb i) as [[-> Hno]|[-> (f & Hf & Hyes)]].
    + unfold edit. destruct (eq_branch flag i _ (arg_buf st i)) eqn:E.
      * right. split; [done|]. exists flag. split; [|done].
        apply elem_of_app. right. apply list_elem_of_singleton. done.
      * left. split; [done|]. intros f [Hf|Hf%list_elem_of_singleton]%elem_of_app;
          [by apply Hno | by simplify_eq].
    + right. split.
      * destruct (edit_cases flag i (args__argc st) (strip (arg_buf st i)))
          as [->|[_ ->]]; [done | apply strip_idemp].
      * exists f. split; [|done]. apply elem_of_app. by left.
  - destruct (Hb j) as [[-> Hno]|[-> (f & Hf & Hyes)]].
    + left. split; [done|]. intros f [Hf|Hf%list_elem_of_singleton]%elem_of_app;
        [by apply Hno | by simplify_eq].
    + right. split; [done|]. exists f. split; [|done]. apply elem_of_app. by left.
Qed.

Lemma scanned_scan l0 l st s result :
  scanned l0 st s -> scanned (l0 ++ l) st (snd (string_scan l result s)).
Proof.
  revert l0 s result. induction l as [|q l IH]; intros l0 s result Hs.
  - by rewrite app_nil_r.
  - rewrite string_scan_cons, cons_middle, (assoc_L (++) l0 [q] l). apply IH.
    destruct q as [flag i]. by apply scanned_step.
Qed.

Lemma scanned_evolved l st s : scanned l st s -> evolved st s.
Proof.
  intros (Hc & Hl & Hb). repeat split; [done..|].
  intros i. destruct (Hb i) as [[-> _]|[-> _]]; [by left | by right].
Qed.

(** A store on which no iteration of [l] has an edit left to make. *)
Lemma string_scan_settled l result s :
  (forall q, q ∈ l ->
             edit q.1 q.2 (args__argc s) (arg_buf s q.2) = arg_buf s q.2) ->
  snd (string_scan l result s) = s.
Proof.
  revert result. induction l as [|q l IH]; intros result Hl; [done|].
  rewrite string_scan_cons.
  assert (snd (string_body q.1 q.2 result s) = s) as ->.
  { rewrite string_body_run. cbn [snd].
    rewrite (alter_arg_buf (edit _ _ _)), Hl by left.
    rewrite alter_keep. by destruct s. }
  apply IH. intros q' Hq'. apply Hl. by right.
Qed.

Lemma scanned_settled l st s q :
  scanned l st s -> q ∈ l ->
  edit q.1 q.2 (args__argc s) (arg_buf s q.2) = arg_buf s q.2.
Proof.
  intros (Hc & Hl & Hb) Hq. destruct q as [flag i]. cbn [fst snd]. rewrite Hc.
  destruct (Hb i) as [[-> Hno]|[-> _]].
  - unfold edit. by rewrite Hno.
  - destruct (edit_cases flag i (args__argc st) (strip (arg_buf st i)))
      as [->|[_ ->]]; [done | apply strip_idemp].
Qed.

(** ** What a stripped buffer still shows to the scan *)

Lemma strip_strchr b : strchr (cstr (strip b)) EQUALS = strchr (cstr b) EQUALS.
Proof.
  destruct (strchr (cstr b) EQUALS) as [k|] eqn:Hk;
    [|unfold strip; by rewrite Hk].
  destruct (decide (b !! S k = Some DQUOTE)) as [Hq|Hq];
    [|unfold strip; by rewrite Hk, decide_False].
  pose proof (close_of_bounds b k Hk Hq).
  rewrite (cstr_strip b k Hk Hq). apply strchr_take; [done | lia].
Qed.

Lemma strip_lookup_quote b k :
  strchr (cstr b) EQUALS = Some k -> strip b !! S k = b !! S k.
Proof.
  intros Hk. unfold strip. rewrite Hk. case_decide; [|done].
  apply list_lookup_insert_ne. lia.
Qed.

Lemma prefix_take_ge (f a : cstring) q :
  f `prefix_of` a -> length f <= q -> f `prefix_of` take q a.
Proof.
  intros [t ->] Hq. rewrite take_app, (take_ge f) by done.
  by apply prefix_app_r.
Qed.

(** A token without quote cannot reach past a quote of the argument. *)
Lemma prefix_before_quote (f a : cstring) j :
  f `prefix_of` a -> a !! j = Some DQUOTE -> DQUOTE ∉ f -> length f <= j.
Proof.
  intros [t ->] Hj Hf. destruct (decide (length f <= j)) as [|Hn]; [done|].
  exfalso. apply Hf. rewrite lookup_app_l in Hj by lia.
  by apply list_elem_of_lookup_2 in Hj.
Qed.

Lemma strip_same_text b flag :
  DQUOTE ∉ flag ->
  (cstr (strip b) = flag <-> cstr b = flag) /\
  (flag `prefix_of` cstr (strip b) <-> flag `prefix_of` cstr b).
Proof.
  intros Hf.
  destruct (strchr (cstr b) EQUALS) as [k|] eqn:Hk;
    [|by rewrite (strip_plain b) by (intros ?; congruence)].
  destruct (decide (b !! S k = Some DQUOTE)) as [Hq|Hq];
    [|by rewrite (strip_plain b) by (intros ?; congruence)].
  pose proof (close_of_bounds b k Hk Hq) as Hb.
  assert (cstr b !! S k = Some DQUOTE) as Hq'.
  { apply cstr_lookup_inside; [lia | done | done]. }
  rewrite (cstr_strip b k Hk Hq). split.
  - split; intros <-; exfalso; apply Hf.
    + apply (list_elem_of_lookup_2 _ (S k)). by rewrite lookup_take_lt by lia.
    + by apply (list_elem_of_lookup_2 _ (S k)).
  - split; intros Hp.
    + etrans; [exact Hp | apply prefix_take].
    + apply prefix_take_ge; [done|].
      pose proof (prefix_before_quote _ _ _ Hp Hq' Hf). lia.
Qed.

Lemma capture_strip flag i argc b :
  DQUOTE ∉ flag ->
  capture flag i argc (strip b) = capture flag i argc b /\
  eq_branch flag i argc (strip b) = eq_branch flag i argc b.
Proof.
  intros Hf. destruct (strip_same_text b flag Hf) as [He Hp].
  unfold capture, eq_branch.
  rewrite (bool_decide_ext _ _ He), (bool_decide_ext _ _ Hp), strip_strchr.
  split; [|done].
  destruct (strchr (cstr b) EQUALS) as [k|] eqn:Hk; [|done].
  by rewrite (strip_lookup_quote b k Hk).
Qed.

Lemma capture_evolved st s flag i :
  evolved st s -> DQUOTE ∉ flag ->
  capture flag i (args__argc s) (arg_buf s i) =
  capture flag i (args__argc st) (arg_buf st i).
Proof.
  intros (Hc & _ & Hb) Hf. rewrite Hc.
  destruct (Hb i) as [->| ->]; [done | by apply capture_strip].
Qed.

(** With alias tokens free of quotes the returned pointer is the one
    the untouched store gives. *)
Lemma string_scan_captured st s l result :
  evolved st s -> Forall (fun q => DQUOTE ∉ q.1) l ->
  fst (string_scan l result s) = captured st l result.
Proof.
  intros He Hl. revert s result He.
  induction Hl as [|q l Hq _ IH]; intros s result He; [done|].
  rewrite string_scan_cons, IH by (by apply evolved_step).
  rewrite string_body_run. cbn [fst captured foldl].
  by rewrite (capture_evolved st s) by done.
Qed.

(** An argument no token matches is passed over, also after edits. *)
Lemma unmatched_idle st s q result :
  evolved st s -> unmatched st q -> string_body q.1 q.2 result s = (result, s).
Proof.
  intros (Hc & Hl & Hb) Hu. destruct q as [flag i]. cbn [fst snd] in *.
  unfold unmatched, matches, arg_at, deref in Hu. cbn [fst snd] in Hu.
  rewrite drop_0 in Hu.
  rewrite string_body_run, (alter_arg_buf (edit _ _ _)).
  assert (capture flag i (args__argc s) (arg_buf s i) = None /\
          edit flag i (args__argc s) (arg_buf s i) = arg_buf s i) as [-> ->].
  { unfold capture, edit, eq_branch.
    destruct (decide (flag `prefix_of` cstr (arg_buf s i))) as [Hp|Hp].
    - assert (flag `prefix_of` cstr (arg_buf st i)) as Hp0.
      { destruct (Hb i) as [E|E]; rewrite E in Hp; [done|].
        etrans; [exact Hp | apply strip_prefix]. }
      assert (strchr (cstr (arg_buf st i)) EQUALS = None) as Hn.
      { destruct (strchr (cstr (arg_buf st i)) EQUALS) eqn:E; [|done].
        exfalso. apply Hu. right. split; [done|]. apply elem_of_strchr. by eauto. }
      assert (arg_buf s i = arg_buf st i) as ->.
      { destruct (Hb i) as [E|E]; [done|]. rewrite E. apply strip_plain.
        intros k. congruence. }
      rewrite (bool_decide_eq_false_2 (cstr _ = flag)) by tauto.
      cbn [negb andb]. rewrite bool_decide_eq_true_2 by done.
      rewrite Hn. split; [done|]. apply strip_plain. intros k. congruence.
    - rewrite (bool_decide_eq_false_2 (cstr _ = flag)) by (by intros <-).
      by rewrite (bool_decide_eq_false_2 (flag `prefix_of` _)) by done. }
  cbn [from_option]. rewrite alter_keep. by destruct s.
Qed.

Lemma string_scan_idle st s l result :
  evolved st s -> Forall (unmatched st) l -> string_scan l result s = (result, s).
Proof.
  intros He Hl. revert result. induction Hl as [|q l Hq _ IH]; intros result; [done|].
  by rewrite string_scan_cons, (unmatched_idle st s q result He Hq), IH.
Qed.

Lemma string_scan_app l1 l2 result s :
  string_scan (l1 ++ l2) result s =
  string_scan l2 (fst (string_scan l1 result s)) (snd (string_scan l1 result s)).
Proof. apply foldM_app. Qed.

(** [args_string]: the last position that matches has the last word. *)
Lemma args_string_last arg st before q after :
  scan_order (args__argc st) arg = before ++ q :: after ->
  Forall (unmatched st) after ->
  args_string arg st =
  string_body q.1 q.2 (fst (string_scan before None st))
                      (snd (string_scan before None st)).
Proof.
  intros Hs Ha. rewrite args_string_scan, Hs, string_scan_app, string_scan_cons.
  rewrite (string_scan_idle st); [by destruct (string_body _ _ _ _) | | done].
  apply evolved_step, evolved_scan, evolved_refl.
Qed.

Lemma args_string_idle arg st :
  Forall (unmatched st) (scan_order (args__argc st) arg) ->
  args_string arg st = (None, st).
Proof.
  intros H. rewrite args_string_scan.
  apply (string_scan_idle st); [apply evolved_refl | done].
Qed.

(** ** [args_bool] and the numeric queries at the position that counts *)

Lemma words_disjoint (w : cstring) : w ∈ true_values -> w ∈ false_values -> False.
Proof.
  intros Ht Hf. unfold true_values, false_values in *.
  repeat (apply elem_of_cons in Ht as [->|Ht]);
    repeat (apply elem_of_cons in Hf as [Hf|Hf]; [discriminate Hf|]);
    try (by apply elem_of_nil in Hf); by apply elem_of_nil in Ht.
Qed.

(** The value the exact branch of [args_bool] returns at index [i]. *)
Lemma bool_body_exact st flag i :
  arg_at st i = flag ->
  fst (bool_body flag i st) =
  Some (if i + 1 <? args__argc st then
          if bool_decide (lower (arg_at st (i + 1)) ∈ true_values) then true
          else if bool_decide (lower (arg_at st (i + 1)) ∈ false_values) then false
          else true
        else true).
Proof.
  intros Ha. rewrite bool_body_fst. cbn zeta.
  rewrite bool_decide_eq_true_2 by done. by repeat case_match.
Qed.

(** [args_bool] when the first deciding position is an exact match. *)
Lemma args_bool_exact st arg before flag i after :
  scan_order (args__argc st) arg = before ++ (flag, i) :: after ->
  Forall (undecided st) before ->
  arg_at st i = flag ->
  fst (args_bool arg st) =
  if i + 1 <? args__argc st then
    if bool_decide (lower (arg_at st (i + 1)) ∈ true_values) then true
    else if bool_decide (lower (arg_at st (i + 1)) ∈ false_values) then false
    else true
  else true.
Proof.
  intros Hs Hb Ha.
  rewrite (args_bool_first arg st before (flag, i) after Hs Hb). cbn [fst snd].
  by rewrite (bool_body_exact st flag i Ha).
Qed.

(** The value the [=] branch of [args_bool] returns at index [i], if any. *)
Lemma bool_body_eq_form st flag i k :
  arg_at st i <> flag -> flag `prefix_of` arg_at st i ->
  strchr (arg_at st i) EQUALS = Some k ->
  fst (bool_body flag i st) =
  if bool_decide (drop (S k) (arg_at st i) ∈ true_values) then Some true
  else if bool_decide (drop (S k) (arg_at st i) ∈ false_values) then Some false
  else None.
Proof.
  intros Ha Hp Hk. rewrite bool_body_fst. cbn zeta.
  by rewrite bool_decide_eq_false_2, bool_decide_eq_true_2, Hk.
Qed.

(** A position whose body does not return is as good as absent. *)
Lemma bool_scan_skip l1 q l2 st :
  fst (bool_body q.1 q.2 st) = None ->
  bool_scan (l1 ++ q :: l2) st = bool_scan (l1 ++ l2) st.
Proof.
  intros Hq. unfold bool_scan. rewrite !firstM_app.
  destruct (fst (firstM _ l1 st)); [done|].
  rewrite (ro_firstM _ l1 (fun x => bool_body_ro x.1 x.2) st).
  cbn [firstM]. unfold bind. by rewrite Hq, bool_body_ro.
Qed.

(** The [=] branch of the numeric queries when it is the last match. *)
Lemma eq_form_numeric {double : Type} (dzero : double)
    (atof : cstring -> double) (st : state) (arg : cstring) before flag i after k :
  scan_order (args__argc st) arg = before ++ (flag, i) :: after ->
  Forall (unmatched st) after ->
  arg_at st i <> flag ->
  flag `prefix_of` arg_at st i ->
  strchr (arg_at st i) EQUALS = Some k ->
  fst (args_int arg st) = atoi (drop (S k) (arg_at st i)) /\
  fst (args_float dzero atof arg st) = atof (drop (S k) (arg_at st i)).
Proof.
  intros Hs Ha Hne Hp Hk.
  rewrite (args_int_last arg st before (flag, i) after Hs Ha).
  rewrite (args_float_last dzero atof arg st before (flag, i) after Hs Ha).
  cbn [fst snd]. rewrite int_body_fst, float_body_fst. cbn zeta.
  by rewrite !bool_decide_eq_false_2, !bool_decide_eq_true_2, Hk by done.
Qed.

(** ** The branches of [args_string] on a store that has seen edits *)

Lemma arg_at_cstr st i : arg_at st i = cstr (arg_buf st i).
Proof. unfold arg_at, deref. simpl. by rewrite drop_0. Qed.

Lemma cstr_lookup_Some b j c : cstr b !! j = Some c -> b !! j = Some c.
Proof.
  intros H. rewrite cstr_lookup_lt; [done|]. by apply lookup_lt_Some in H.
Qed.

Lemma string_body_exact st s flag i result :
  evolved st s -> DQUOTE ∉ flag ->
  arg_at st i = flag -> i + 1 < args__argc st ->
  string_body flag i result s = (Some (i + 1, 0), s).
Proof.
  intros He Hf Ha Hi. rewrite string_body_run.
  rewrite (capture_evolved st s flag i He Hf).
  rewrite (alter_arg_buf (edit _ _ _)).
  destruct He as (Hc & _ & Hb). rewrite Hc.
  apply Nat.ltb_lt in Hi. rewrite arg_at_cstr in Ha.
  assert (eq_branch flag i (args__argc st) (arg_buf s i) = false) as Hn.
  { destruct (Hb i) as [->| ->]; [|rewrite (proj2 (capture_strip _ _ _ _ Hf))];
      unfold eq_branch; by rewrite bool_decide_eq_true_2, Hi. }
  unfold edit. rewrite Hn, alter_keep. unfold capture.
  rewrite bool_decide_eq_true_2, Hi by done. cbn [andb from_option].
  destruct s. simpl in *. by subst.
Qed.

Lemma string_body_eq_form st s flag i k result :
  evolved st s -> DQUOTE ∉ flag ->
  arg_at st i <> flag \/ args__argc st <= i + 1 ->
  flag `prefix_of` arg_at st i ->
  strchr (arg_at st i) EQUALS = Some k ->
  let r := string_body flag i result s in
  fst r = Some (if decide (arg_at st i !! S k = Some DQUOTE)
                then (i, k + 2) else (i, k + 1)) /\
  arg_buf (snd r) i = strip (arg_buf st i) /\
  evolved st (snd r).
Proof.
  intros He Hf Hne Hp Hk r. subst r.
  split; [|split; [|by apply evolved_step]].
  - rewrite string_body_run. cbn [fst].
    rewrite (capture_evolved st s flag i He Hf).
    rewrite arg_at_cstr in *. unfold capture.
    assert (bool_decide (cstr (arg_buf st i) = flag) && (i + 1 <? args__argc st)
            = false) as ->.
    { destruct Hne as [Hne|Hi].
      - by rewrite bool_decide_eq_false_2.
      - apply Nat.ltb_ge in Hi. by rewrite Hi, andb_false_r. }
    rewrite bool_decide_eq_true_2, Hk by done.
    destruct (decide (arg_buf st i !! S k = Some DQUOTE)) as [Hq|Hq].
    + rewrite decide_True; [done|].
      apply cstr_lookup_inside; [apply strchr_lt in Hk; lia | done | done].
    + rewrite decide_False; [done|]. intros Hq'. by apply Hq, cstr_lookup_Some.
  - rewrite string_body_run. cbn [snd]. rewrite arg_buf_edit, decide_True by done.
    destruct He as (Hc & _ & Hb). rewrite Hc. rewrite arg_at_cstr in *.
    assert (eq_branch flag i (args__argc st) (arg_buf s i) = true) as Hy.
    { destruct (Hb i) as [->| ->]; [|rewrite (proj2 (capture_strip _ _ _ _ Hf))];
        unfold eq_branch; rewrite (bool_decide_eq_true_2 (flag `prefix_of` _)) by done;
        rewrite andb_true_r; apply negb_true_iff;
        (destruct Hne as [Hne|Hi];
         [by rewrite bool_decide_eq_false_2
         |apply Nat.ltb_ge in Hi; by rewrite Hi, andb_false_r]). }
    unfold edit. rewrite Hy.
    destruct (Hb i) as [->| ->]; [done | apply strip_idemp].
Qed.

(** The text read after the opening quote of a stripped buffer. *)
Lemma deref_stripped b k :
  strchr (cstr b) EQUALS = Some k -> b !! S k = Some DQUOTE ->
  cstr (drop (k + 2) (strip b)) =
  take (quote_run (drop (k + 2) (cstr b))) (drop (k + 2) (cstr b)).
Proof.
  intros Hk Hq. pose proof (close_of_bounds b k Hk Hq) as Hb.
  rewrite (strip_quoted b k Hk Hq). unfold close_of in *.
  rewrite drop_insert_ge by lia.
  replace (k + 2 + quote_run (cstr (drop (k + 2) b)) - (k + 2))
    with (quote_run (cstr (drop (k + 2) b))) by lia.
  rewrite cstr_insert_NUL by apply quote_run_le.
  by rewrite cstr_drop by lia.
Qed.


(** ** The positions of the scan order and the frame of an edit *)

Lemma scan_order_0 arg : scan_order 0 arg = [].
Proof.
  unfold scan_order, indices. simpl.
  induction (tokens arg) as [|flag fs IH]; [done|]. by rewrite bind_cons, IH.
Qed.

Lemma elem_of_scan_order argc arg flag i :
  (flag, i) ∈ scan_order argc arg <-> flag ∈ tokens arg /\ 1 <= i < argc.
Proof.
  unfold scan_order, indices. rewrite list_elem_of_bind. split.
  - intros (f & Hi & Hf). apply list_elem_of_fmap in Hi as (j & [= -> ->] & Hj).
    apply elem_of_seq in Hj. split; [done | lia].
  - intros [Hf Hi]. exists flag. split; [|done].
    apply list_elem_of_fmap. exists i. split; [done|]. apply elem_of_seq. lia.
Qed.

(** What the edit does to a buffer: nothing, or the closing quote of a
    quoted value becomes the terminator. *)
Lemma strip_frame b :
  strip b = b \/
  exists k, strchr (cstr b) EQUALS = Some k /\ b !! S k = Some DQUOTE /\
            b !! close_of b k = Some DQUOTE /\
            strip b = <[close_of b k := NUL]> b.
Proof.
  destruct (strchr (cstr b) EQUALS) as [k|] eqn:Hk;
    [|left; apply strip_plain; intros k; congruence].
  destruct (decide (b !! S k = Some DQUOTE)) as [Hq|Hq];
    [|left; apply strip_plain; intros k'; congruence].
  pose proof (close_of_bounds b k Hk Hq) as Hbd.
  rewrite (strip_quoted b k Hk Hq).
  destruct (quote_run_stop (cstr (drop (k + 2) b))) as [Hs|Hs].
  - right. exists k. repeat split; try done.
    apply cstr_lookup_Some in Hs. by rewrite lookup_drop in Hs.
  - left. apply lookup_ge_None in Hs.
    pose proof (quote_run_le (cstr (drop (k + 2) b))) as Hle.
    assert (quote_run (cstr (drop (k + 2) b)) = length (cstr (drop (k + 2) b)))
      as Hn by lia.
    unfold close_of. rewrite Hn.
    destruct (cstr_lookup_end (drop (k + 2) b)) as [He|He];
      rewrite lookup_drop in He.
    + by apply list_insert_id.
    + apply list_insert_ge. by apply lookup_ge_None.
Qed.

Lemma arg_buf_lookup st i b : args__argv st !! i = Some b -> arg_buf st i = b.
Proof. intros H. unfold arg_buf. by rewrite H. Qed.

Lemma lookup_arg_buf st i :
  i < length (args__argv st) -> args__argv st !! i = Some (arg_buf st i).
Proof.
  intros Hi. apply lookup_lt_is_Some in Hi as [b Hb].
  by rewrite (arg_buf_lookup st i b Hb).
Qed.

Lemma args_bool_ro arg : read_only (args_bool arg).
Proof. intros st. by rewrite args_bool_scan. Qed.

Lemma args_int_ro arg : read_only (args_int arg).
Proof. intros st. rewrite args_int_scan. apply int_scan_ro. Qed.

Lemma args_float_ro {double} (dzero : double) atof arg :
  read_only (args_float dzero atof arg).
Proof. intros st. rewrite args_float_scan. apply float_scan_ro. Qed.

(** ** Alias tokens are made of bytes of the query string *)

Lemma skip_delim_sub d s (c : ascii) : c ∈ skip_delim d s -> c ∈ s.
Proof.
  induction s as [|x s IH]; simpl; [done|].
  case_decide; [intros; right; auto | done].
Qed.

Lemma strtok_sub d s flag saved (c : ascii) :
  strtok d s = Some (flag, saved) -> c ∈ flag \/ c ∈ saved -> c ∈ s.
Proof.
  unfold strtok. destruct (skip_delim d s) as [|x t] eqn:E; [done|].
  intros [= <- <-] Hc. apply (skip_delim_sub d). rewrite E.
  destruct Hc as [Hc|Hc].
  - by apply (subseteq_take (span_delim d (x :: t))).
  - by apply (subseteq_drop (S (span_delim d (x :: t)))).
Qed.

Lemma tokens_from_sub fuel s flag (c : ascii) :
  flag ∈ tokens_from fuel s -> c ∈ flag -> c ∈ s.
Proof.
  revert s. induction fuel as [|n IH]; intros s; simpl; [by intros ?%elem_of_nil|].
  destruct (strtok BAR s) as [[f saved]|] eqn:E; [|by intros ?%elem_of_nil].
  intros [->|Hin]%elem_of_cons Hc.
  - apply (strtok_sub _ _ _ _ _ E). by left.
  - apply (strtok_sub _ _ _ _ _ E). right. by apply IH.
Qed.

Lemma cstr_sub b (c : ascii) : c ∈ cstr b -> c ∈ b.
Proof.
  induction b as [|x b IH]; simpl; [done|].
  case_decide; [by intros ?%elem_of_nil|].
  intros [->|?]%elem_of_cons; [left | right; auto].
Qed.

Lemma tokens_sub arg flag (c : ascii) : flag ∈ tokens arg -> c ∈ flag -> c ∈ arg.
Proof.
  unfold tokens. intros Hf Hc. apply cstr_sub.
  by apply (tokens_from_sub (S (strlen (cstr arg))) _ flag).
Qed.

Lemma scan_order_no_quote argc arg :
  DQUOTE ∉ arg -> Forall (fun q => DQUOTE ∉ q.1) (scan_order argc arg).
Proof.
  intros Ha. apply Forall_forall. intros [flag i] [Hf _]%elem_of_scan_order Hq.
  apply Ha. by apply (tokens_sub arg flag).
Qed.

(** ** The two capturing branches of [args_string] on any store *)

Lemma string_body_exact_here st flag i result :
  arg_at st i = flag -> i + 1 < args__argc st ->
  string_body flag i result st = (Some (i + 1, 0), st).
Proof.
  intros Ha Hi. rewrite string_body_run, (alter_arg_buf (edit _ _ _)).
  rewrite arg_at_cstr in Ha. apply Nat.ltb_lt in Hi.
  unfold capture, edit, eq_branch.
  rewrite bool_decide_eq_true_2, Hi by done. cbn [andb negb from_option].
  rewrite alter_keep. by destruct st.
Qed.


(** ** What [args_string] leaves in an argument *)

Lemma args_string_scanned arg st :
  scanned (scan_order (args__argc st) arg) st (snd (args_string arg st)).
Proof.
  rewrite args_string_scan.
  apply (scanned_scan [] _ st st None), scanned_nil.
Qed.

Lemma eq_branch_true flag i argc b :
  eq_branch flag i argc b = true <->
  flag `prefix_of` cstr b /\ (cstr b <> flag \/ argc <= i + 1).
Proof.
  unfold eq_branch. rewrite andb_true_iff, negb_true_iff, andb_false_iff.
  rewrite bool_decide_eq_true, bool_decide_eq_false, Nat.ltb_ge. tauto.
Qed.

(** The text of a scanned argument after a query: as it was when no
    alias token sends the loop into the [=] branch on it or when no quote
    follows its first [=]; cut where the quoted run ends otherwise. *)
Lemma args_string_leaves arg st j :
  1 <= j < args__argc st ->
  let a := arg_at st j in
  let a' := arg_at (snd (args_string arg st)) j in
  ((forall f, f ∈ tokens arg -> f `prefix_of` a ->
              a = f /\ j + 1 < args__argc st) -> a' = a) /\
  ((forall k, strchr a EQUALS = Some k -> a !! S k <> Some DQUOTE) -> a' = a) /\
  (forall f k, f ∈ tokens arg -> f `prefix_of` a ->
     a <> f \/ args__argc st <= j + 1 ->
     strchr a EQUALS = Some k -> a !! S k = Some DQUOTE ->
     a' = take (k + 2 + quote_run (drop (k + 2) a)) a).
Proof.
  intros Hj a a'. subst a a'. rewrite !arg_at_cstr.
  destruct (args_string_scanned arg st) as (_ & _ & Hb).
  destruct (Hb j) as [[-> Hno]|[-> (f & Hin & Hyes)]].
  - split; [done|]. split; [done|].
    intros f k Hf Hp Hne Hk Hq. exfalso.
    assert (eq_branch f j (args__argc st) (arg_buf st j) = true) as Hyes
      by (apply eq_branch_true; tauto).
    rewrite Hno in Hyes; [done|]. apply elem_of_scan_order. tauto.
  - apply elem_of_scan_order in Hin as [Hin _].
    apply eq_branch_true in Hyes as [Hp Hne].
    split; [|split].
    + intros Hall. destruct (Hall f Hin Hp) as [He Hlt].
      destruct Hne; [done | lia].
    + intros Hplain. rewrite strip_plain; [done|].
      intros k Hk Hq. apply (Hplain k Hk).
      apply cstr_lookup_inside; [apply strchr_lt in Hk; lia | done | done].
    + intros _ k _ _ _ Hk Hq. apply cstr_lookup_Some in Hq.
      pose proof (close_of_bounds _ k Hk Hq) as Hbd.
      rewrite (cstr_strip _ k Hk Hq). unfold close_of in *.
      by rewrite cstr_drop by lia.
Qed.

(** ** Deciding the side conditions on concrete argument vectors *)

Ltac decide_now := apply (bool_decide_unpack _); vm_compute; exact I.

#[global] Instance matches_dec a flag : Decision (matches a flag).
Proof. unfold matches. apply _. Defined.

#[global] Instance decides_dec a flag : Decision (decides a flag).
Proof. unfold decides. destruct (strchr a EQUALS); apply _. Defined.

#[global] Instance unmatched_dec st q : Decision (unmatched st q).
Proof. unfold unmatched. apply _. Defined.

#[global] Instance undecided_dec st q : Decision (undecided st q).
Proof. unfold undecided. apply _. Defined.

(** * The specified behaviour *)

(** C1 (match priority), as the code has it.  The two loops visit the
    alias tokens in the order of the query string and, for each token,
    the arguments from left to right.  [args_int], [args_float] and
    [args_string] never leave the loops.  When the last position of that
    order that matches is an [=] form (the argument starts with the
    token, is not the token and holds an [=]), [args_int] and
    [args_float] return the number parsed from the text after its first
    [=], whatever matched at the positions before; [args_string], for a
    token without quote character, returns that text or, when that text
    begins with a quote, the run that follows the quote up to the next
    quote or the end of the argument.  [args_bool] returns at the first
    position that decides, in the bare form and in the [=] form alike:
    the result is that of this position alone, whatever follows it. *)
Theorem match_priority {double : Type} (dzero : double)
    (atof : cstring -> double) (st : state) (arg : cstring) :
  (forall before flag i after k,
     scan_order (args__argc st) arg = before ++ (flag, i) :: after ->
     Forall (unmatched st) after ->
     arg_at st i <> flag ->
     flag `prefix_of` arg_at st i ->
     strchr (arg_at st i) EQUALS = Some k ->
     let value := drop (S k) (arg_at st i) in
     fst (args_int arg st) = atoi value /\
     fst (args_float dzero atof arg st) = atof value /\
     (DQUOTE ∉ flag ->
      let r := args_string arg st in
      string_at (snd r) (fst r) =
      Some (if decide (head value = Some DQUOTE)
            then take (quote_run (drop 1 value)) (drop 1 value)
            else value))) /\
  (forall before flag i after,
     scan_order (args__argc st) arg = before ++ (flag, i) :: after ->
     Forall (undecided st) before ->
     decides (arg_at st i) flag ->
     fst (args_bool arg st) = default false (fst (bool_scan [(flag, i)] st))).
Proof.
  split.
  - intros before flag i after k Hs Ha Hne Hp Hk value. subst value.
    destruct (eq_form_numeric dzero atof st arg before flag i after k
                Hs Ha Hne Hp Hk) as [Hi Hf].
    split; [done|]. split; [done|]. intros Hq r. subst r.
    rewrite (args_string_last arg st before (flag, i) after Hs Ha). cbn [fst snd].
    assert (evolved st (snd (string_scan before None st))) as Hev
      by apply evolved_scan, evolved_refl.
    destruct (string_body_eq_form st _ flag i k (fst (string_scan before None st))
                Hev Hq (or_introl Hne) Hp Hk) as (Hr & Hb & _).
    rewrite Hr. rewrite head_lookup, lookup_drop, Nat.add_0_r, drop_drop.
    replace (S k + 1) with (k + 2) by lia.
    rewrite arg_at_cstr in *.
    destruct (decide (cstr (arg_buf st i) !! S k = Some DQUOTE)) as [Hy|Hn].
    + assert (arg_buf st i !! S k = Some DQUOTE) as Hq'
        by (by apply cstr_lookup_Some).
      unfold string_at, deref. simpl. rewrite Hb.
      by rewrite (deref_stripped _ k Hk Hq').
    + unfold string_at, deref. simpl. rewrite Hb, Nat.add_1_r.
      rewrite strip_plain.
      * by rewrite cstr_drop by (apply strchr_lt in Hk; lia).
      * intros k' Hk' Hq'. assert (k' = k) as -> by congruence.
        apply Hn. apply cstr_lookup_inside; [apply strchr_lt in Hk; lia | done | done].
  - intros before flag i after Hs Hb Hd.
    rewrite (args_bool_first arg st before (flag, i) after Hs Hb). cbn [fst snd].
    unfold bool_scan. cbn [firstM]. unfold bind. cbn [fst snd].
    destruct (fst (bool_body flag i st)) as [v|] eqn:E; [done|].
    exfalso. by apply (undecided_None st (flag, i)) in E.
Qed.

Lemma match_priority_witness :
  (let st := parsed [lit "prog"; lit "--count"; lit "7"; lit "--count=9"] in
   fst (args_int (lit "--count") st) = 9%Z /\
   fst (args_float None Some (lit "--count") st) = Some (lit "9") /\
   string_at (snd (args_string (lit "--count") st))
             (fst (args_string (lit "--count") st)) = Some (lit "9")) /\
  (let st := parsed [lit "prog"; lit "--count"; lit "7";
                     lit "--count=" ++ [DQUOTE] ++ lit "9 10" ++ [DQUOTE]] in
   fst (args_int (lit "--count") st) = 0%Z /\
   string_at (snd (args_string (lit "--count") st))
             (fst (args_string (lit "--count") st)) = Some (lit "9 10")) /\
  (let st := parsed [lit "prog"; lit "--flag=true"; lit "--flag=false"] in
   fst (args_bool (lit "--flag") st) = true) /\
  (let st := parsed [lit "prog"; lit "--flag"; lit "--flag=false"] in
   fst (args_bool (lit "--flag") st) = true).
Proof.
  split; [|split; [|split]]; intros st.
  - destruct (match_priority None Some st (lit "--count")) as [Hlast _].
    destruct (Hlast [(lit "--count", 1); (lit "--count", 2)] (lit "--count") 3 [] 7
                eq_refl (Forall_nil_2 _)) as (Hi & Hf & Hs);
      [discriminate | decide_now | reflexivity |].
    split; [exact Hi|]. split; [exact Hf|].
    apply Hs. decide_now.
  - destruct (match_priority None Some st (lit "--count")) as [Hlast _].
    destruct (Hlast [(lit "--count", 1); (lit "--count", 2)] (lit "--count") 3 [] 7
                eq_refl (Forall_nil_2 _)) as (Hi & _ & Hs);
      [discriminate | decide_now | reflexivity |].
    split; [exact Hi|].
    apply Hs. decide_now.
  - destruct (match_priority None Some st (lit "--flag")) as [_ Hfirst].
    apply (Hfirst [] (lit "--flag") 1 [(lit "--flag", 2)] eq_refl (Forall_nil_2 _)).
    decide_now.
  - destruct (match_priority None Some st (lit "--flag")) as [_ Hfirst].
    apply (Hfirst [] (lit "--flag") 1 [(lit "--flag", 2)] eq_refl (Forall_nil_2 _)).
    decide_now.
Defined.

(** C1 as stated fails twice.  With two [=] forms of one flag,
    [args_bool] returns at the first: the last one, which alone would
    give false, is never read.  And with two alias tokens the [=] form
    that stands later in the vector is scanned first when its token
    comes first in the query string, so the exact match has the last
    word for [args_int]. *)
Lemma match_priority_counterexample :
  (let st := parsed [lit "prog"; lit "--flag=true"; lit "--flag=false"] in
   fst (args_bool (lit "--flag") st) = true /\
   fst (bool_body (lit "--flag") 2 st) = Some false) /\
  (let st := parsed [lit "prog"; lit "--count"; lit "7"; lit "-c=9"] in
   fst (args_int (lit "-c|--count") st) = 7%Z /\
   fst (int_body (lit "-c") 3 0%Z st) = 9%Z).
Proof. repeat split. Qed.

(** C2 (default on absence).  When nothing was registered (the statics
    are still zero, so nothing is scanned) or no alias token of the
    query matches any scanned argument, [args_bool] returns false,
    [args_int] 0, [args_float] the zero it starts from and [args_string]
    the null pointer, each leaving the store as it is; every query is a
    total function of the store and the query string, so none raises
    anything. *)
Theorem default_on_absence {double : Type} (dzero : double)
    (atof : cstring -> double) (st : state) (arg : cstring) :
  st = initial \/ Forall (unmatched st) (scan_order (args__argc st) arg) ->
  args_bool arg st = (false, st) /\
  args_int arg st = (0%Z, st) /\
  args_float dzero atof arg st = (dzero, st) /\
  args_string arg st = (None, st) /\
  string_at st None = None.
Proof.
  intros H.
  assert (Forall (unmatched st) (scan_order (args__argc st) arg)) as Hu.
  { destruct H as [->|H]; [|done]. cbn [initial args__argc].
    rewrite scan_order_0. constructor. }
  split; [|split; [|split; [|split]]].
  - apply args_bool_idle. eapply Forall_impl; [exact Hu|].
    intros q. apply unmatched_undecided.
  - by apply args_int_idle.
  - by apply args_float_idle.
  - by apply args_string_idle.
  - done.
Qed.

Lemma default_on_absence_witness :
  (args_bool (lit "-h|--help") initial = (false, initial) /\
   args_int (lit "-h|--help") initial = (0%Z, initial) /\
   args_float None Some (lit "-h|--help") initial = (None, initial) /\
   args_string (lit "-h|--help") initial = (None, initial) /\
   string_at initial None = None) /\
  let st := parsed [lit "prog"; lit "--verbose"; lit "7"; lit "count=3"] in
  (args_bool (lit "-c|--count") st = (false, st) /\
   args_int (lit "-c|--count") st = (0%Z, st) /\
   args_float None Some (lit "-c|--count") st = (None, st) /\
   args_string (lit "-c|--count") st = (None, st) /\
   string_at st None = None).
Proof.
  split.
  - apply (default_on_absence None Some initial). left. reflexivity.
  - intros st. apply (default_on_absence None Some st). right. decide_now.
Defined.

(** C3 (bare form of [args_bool]), as the code has it.  Let argument
    [i] be the first position of the scan order that decides, and let it
    be the alias token itself.  If a next argument exists and is a truthy word the
    query returns true, if it is a falsy word false (the words compare
    up to case, so a word written as in the table is one), and if there
    is no next argument or it is neither, true: the flag is present. *)
Theorem bool_bare_form (st : state) (arg : cstring) before flag i after :
  scan_order (args__argc st) arg = before ++ (flag, i) :: after ->
  Forall (undecided st) before ->
  arg_at st i = flag ->
  let next_arg := arg_at st (i + 1) in
  let r := fst (args_bool arg st) in
  (i + 1 < args__argc st -> lower next_arg ∈ true_values -> r = true) /\
  (i + 1 < args__argc st -> lower next_arg ∈ false_values -> r = false) /\
  (args__argc st <= i + 1 \/
   ((lower next_arg ∉ true_values) /\ (lower next_arg ∉ false_values)) ->
   r = true).
Proof.
  intros Hs Hb Ha next_arg r. subst r next_arg.
  rewrite (args_bool_exact st arg before flag i after Hs Hb Ha).
  split; [|split].
  - intros Hi Ht. apply Nat.ltb_lt in Hi. rewrite Hi.
    by rewrite bool_decide_eq_true_2.
  - intros Hi Hf. apply Nat.ltb_lt in Hi. rewrite Hi.
    rewrite bool_decide_eq_false_2, bool_decide_eq_true_2; [done..|].
    intros Ht. by eapply words_disjoint.
  - intros [Hi|[Ht Hf]].
    + apply Nat.ltb_ge in Hi. by rewrite Hi.
    + destruct (i + 1 <? args__argc st); [|done].
      by rewrite !bool_decide_eq_false_2.
Qed.

Lemma bool_bare_form_witness :
  fst (args_bool (lit "--flag") (parsed [lit "prog"; lit "--flag"])) = true /\
  fst (args_bool (lit "--flag") (parsed [lit "prog"; lit "--flag"; lit "off"])) = false /\
  fst (args_bool (lit "-f|--flag")
         (parsed [lit "prog"; lit "x"; lit "--flag"; lit "yes"])) = true.
Proof.
  split; [|split].
  - destruct (bool_bare_form (parsed [lit "prog"; lit "--flag"]) (lit "--flag")
                [] (lit "--flag") 1 [] eq_refl (Forall_nil_2 _) eq_refl)
      as (_ & _ & Hbare).
    apply Hbare. left. vm_compute. lia.
  - destruct (bool_bare_form (parsed [lit "prog"; lit "--flag"; lit "off"])
                (lit "--flag") [] (lit "--flag") 1 [(lit "--flag", 2)]
                eq_refl (Forall_nil_2 _) eq_refl) as (_ & Hfalsy & _).
    apply Hfalsy; [vm_compute; lia | decide_now].
  - assert (Forall (undecided (parsed [lit "prog"; lit "x"; lit "--flag"; lit "yes"]))
              [(lit "-f", 1); (lit "-f", 2); (lit "-f", 3); (lit "--flag", 1)])
      as Hbefore by decide_now.
    destruct (bool_bare_form
                (parsed [lit "prog"; lit "x"; lit "--flag"; lit "yes"])
                (lit "-f|--flag")
                [(lit "-f", 1); (lit "-f", 2); (lit "-f", 3); (lit "--flag", 1)]
                (lit "--flag") 2 [(lit "--flag", 3)] eq_refl Hbefore eq_refl)
      as (Htruthy & _ & _).
    apply Htruthy; [vm_compute; lia | decide_now].
Defined.

(** C3 as stated fails when a position that decides comes before the
    exact match.  Argument 2 is the alias token and is followed by a
    truthy word, yet the query has returned false at argument 1, whose
    [=] form holds a falsy word: the exact match is never read. *)
Lemma bool_bare_form_counterexample :
  let st := parsed [lit "prog"; lit "--flag=false"; lit "--flag"; lit "yes"] in
  arg_at st 2 = lit "--flag" /\
  2 + 1 < args__argc st /\
  lower (arg_at st (2 + 1)) ∈ true_values /\
  fst (args_bool (lit "--flag") st) = false.
Proof.
  intros st. split; [reflexivity|]. split; [vm_compute; lia|].
  split; [decide_now | reflexivity].
Qed.

(** C4 (case asymmetry of [args_bool]).  Let [(flag, i)] be the first
    position of the scan order that can decide.  In the bare form the
    next argument is compared with the words up to case: only its
    lower-cased text counts.  In the [=] form the text after [=] must be
    a word exactly as the table spells it; any other text, also a word in
    another case, is not recognised, and the query returns what the rest
    of the scan gives. *)
Theorem bool_case_asymmetry (st : state) (arg : cstring) before flag i after :
  scan_order (args__argc st) arg = before ++ (flag, i) :: after ->
  Forall (undecided st) before ->
  let a := arg_at st i in
  let r := fst (args_bool arg st) in
  (a = flag -> i + 1 < args__argc st ->
   (lower (arg_at st (i + 1)) ∈ true_values -> r = true) /\
   (lower (arg_at st (i + 1)) ∈ false_values -> r = false)) /\
  (a <> flag -> flag `prefix_of` a ->
   forall k, strchr a EQUALS = Some k ->
     let value := drop (S k) a in
     (value ∈ true_values -> r = true) /\
     (value ∈ false_values -> r = false) /\
     (value ∉ true_values -> value ∉ false_values ->
      r = default false (fst (bool_scan after st)))).
Proof.
  intros Hs Hb a r. subst a r. split.
  - intros Ha Hi. apply Nat.ltb_lt in Hi.
    rewrite (args_bool_exact st arg before flag i after Hs Hb Ha), Hi.
    split; [intros Ht; by rewrite bool_decide_eq_true_2|].
    intros Hf. rewrite bool_decide_eq_false_2, bool_decide_eq_true_2; [done..|].
    intros Ht. by eapply words_disjoint.
  - intros Ha Hp k Hk value. subst value.
    rewrite (args_bool_first arg st before (flag, i) after Hs Hb). cbn [fst snd].
    rewrite (bool_body_eq_form st flag i k Ha Hp Hk).
    split; [|split].
    + intros Ht. by rewrite bool_decide_eq_true_2.
    + intros Hf. rewrite bool_decide_eq_false_2, bool_decide_eq_true_2; [done..|].
      intros Ht. by eapply words_disjoint.
    + intros Ht Hf. by rewrite !bool_decide_eq_false_2.
Qed.

Lemma bool_case_asymmetry_witness :
  fst (args_bool (lit "--flag") (parsed [lit "prog"; lit "--flag"; lit "TRUE"])) = true /\
  fst (args_bool (lit "--flag") (parsed [lit "prog"; lit "--flag"; lit "Off"])) = false /\
  fst (args_bool (lit "--flag") (parsed [lit "prog"; lit "--flag=true"])) = true /\
  fst (args_bool (lit "--flag") (parsed [lit "prog"; lit "--flag=TRUE"])) = false.
Proof.
  split; [|split; [|split]].
  - destruct (bool_case_asymmetry
                (parsed [lit "prog"; lit "--flag"; lit "TRUE"]) (lit "--flag")
                [] (lit "--flag") 1 [(lit "--flag", 2)] eq_refl (Forall_nil_2 _))
      as [Hbare _].
    apply Hbare; [reflexivity | vm_compute; lia | decide_now].
  - destruct (bool_case_asymmetry
                (parsed [lit "prog"; lit "--flag"; lit "Off"]) (lit "--flag")
                [] (lit "--flag") 1 [(lit "--flag", 2)] eq_refl (Forall_nil_2 _))
      as [Hbare _].
    apply Hbare; [reflexivity | vm_compute; lia | decide_now].
  - destruct (bool_case_asymmetry
                (parsed [lit "prog"; lit "--flag=true"]) (lit "--flag")
                [] (lit "--flag") 1 [] eq_refl (Forall_nil_2 _))
      as [_ Heq].
    apply (Heq ltac:(discriminate) ltac:(decide_now) 6 eq_refl). decide_now.
  - destruct (bool_case_asymmetry
                (parsed [lit "prog"; lit "--flag=TRUE"]) (lit "--flag")
                [] (lit "--flag") 1 [] eq_refl (Forall_nil_2 _))
      as [_ Heq].
    apply (Heq ltac:(discriminate) ltac:(decide_now) 6 eq_refl); decide_now.
Defined.

(** C5 (numeric capture).  Let [(flag, i)] be the last position of the
    scan order that matches.  When argument [i] is the token itself,
    [args_int] and [args_float] parse the next argument only if it
    exists and starts with a decimal digit; otherwise (so for a leading
    minus sign) the result stays what the scan before had made it, 0
    when nothing came before.  When argument [i] starts with the token
    and holds an [=], the text after the first [=] is parsed whatever it
    starts with. *)
Theorem numeric_capture {double : Type} (dzero : double)
    (atof : cstring -> double) (st : state) (arg : cstring) before flag i after :
  scan_order (args__argc st) arg = before ++ (flag, i) :: after ->
  Forall (unmatched st) after ->
  let a := arg_at st i in
  let next_arg := arg_at st (i + 1) in
  let ri := fst (args_int arg st) in
  let rf := fst (args_float dzero atof arg st) in
  (a = flag -> i + 1 < args__argc st -> isdigit (first_byte next_arg) = true ->
   ri = atoi next_arg /\ rf = atof next_arg) /\
  (a = flag -> args__argc st <= i + 1 \/ isdigit (first_byte next_arg) = false ->
   ri = fst (int_scan before 0%Z st) /\
   rf = fst (float_scan atof before dzero st)) /\
  (a <> flag -> flag `prefix_of` a ->
   forall k, strchr a EQUALS = Some k ->
     ri = atoi (drop (S k) a) /\ rf = atof (drop (S k) a)).
Proof.
  intros Hs Ha a next_arg ri rf. subst a next_arg ri rf.
  rewrite (args_int_last arg st before (flag, i) after Hs Ha).
  rewrite (args_float_last dzero atof arg st before (flag, i) after Hs Ha).
  cbn [fst snd]. rewrite int_body_fst, float_body_fst. cbn zeta.
  split; [|split].
  - intros He Hi Hd. apply Nat.ltb_lt in Hi.
    by rewrite !bool_decide_eq_true_2, Hi, Hd by done.
  - intros He Hn. rewrite !bool_decide_eq_true_2 by done.
    destruct Hn as [Hi|Hd].
    + apply Nat.ltb_ge in Hi. by rewrite Hi.
    + by rewrite Hd, andb_false_r.
  - intros Hne Hp k Hk.
    by rewrite !bool_decide_eq_false_2, !bool_decide_eq_true_2, Hk by done.
Qed.

Lemma numeric_capture_witness :
  (let st := parsed [lit "prog"; lit "--count=42"] in
   fst (args_int (lit "-c|--count") st) = 42%Z /\
   fst (args_float None Some (lit "-c|--count") st) = Some (lit "42")) /\
  (let st := parsed [lit "prog"; lit "--count"; lit "-5"] in
   fst (args_int (lit "--count") st) = 0%Z /\
   fst (args_float None Some (lit "--count") st) = None) /\
  (let st := parsed [lit "prog"; lit "--count"; lit "42"] in
   fst (args_int (lit "-c|--count") st) = 42%Z /\
   fst (args_float None Some (lit "-c|--count") st) = Some (lit "42")) /\
  (let st := parsed [lit "prog"; lit "--count=-5"] in
   fst (args_int (lit "--count") st) = (-5)%Z /\
   fst (args_float None Some (lit "--count") st) = Some (lit "-5")).
Proof.
  split; [|split; [|split]]; intros st.
  - destruct (numeric_capture None Some st (lit "-c|--count")
                [(lit "-c", 1)] (lit "--count") 1 [] eq_refl (Forall_nil_2 _))
      as (_ & _ & Heq).
    apply (Heq ltac:(discriminate) ltac:(decide_now) 7 eq_refl).
  - assert (Forall (unmatched st) [(lit "--count", 2)]) as Hafter by decide_now.
    destruct (numeric_capture None Some st (lit "--count")
                [] (lit "--count") 1 [(lit "--count", 2)] eq_refl Hafter)
      as (_ & Hstay & _).
    apply (Hstay eq_refl). right. reflexivity.
  - assert (Forall (unmatched st) [(lit "--count", 2)]) as Hafter by decide_now.
    destruct (numeric_capture None Some st (lit "-c|--count")
                [(lit "-c", 1); (lit "-c", 2)] (lit "--count") 1
                [(lit "--count", 2)] eq_refl Hafter)
      as (Hdigit & _ & _).
    apply (Hdigit eq_refl); [vm_compute; lia | reflexivity].
  - destruct (numeric_capture None Some st (lit "--count")
                [] (lit "--count") 1 [] eq_refl (Forall_nil_2 _))
      as (_ & _ & Heq).
    apply (Heq ltac:(discriminate) ltac:(decide_now) 7 eq_refl).
Defined.

(** C6 (exact-match capture of [args_string]), as the code has it.  At
    an index [i] whose argument is the alias token itself and has a next
    argument, the loop assigns to [result] the pointer [args__argv[i + 1]]
    itself, whatever that argument looks like, and writes nothing.  This
    pointer is what the query returns when [(flag, i)] is the last
    position of the scan order that matches and the token holds no quote
    character.  The text read through it is the next argument verbatim
    when no alias token of the query sends the loop into the [=] branch
    on the next argument (none is a prefix of it, or the next argument is
    that token and is itself followed by an argument), and also when no
    quote follows the first [=] of the next argument.  Otherwise the scan
    has overwritten the byte where the quoted run of the next argument
    ends, and the text read is the next argument up to that byte. *)
Theorem string_exact_capture (st : state) flag i :
  arg_at st i = flag ->
  i + 1 < args__argc st ->
  (forall result, string_body flag i result st = (Some (i + 1, 0), st)) /\
  (forall arg before after,
     scan_order (args__argc st) arg = before ++ (flag, i) :: after ->
     Forall (unmatched st) after ->
     DQUOTE ∉ flag ->
     let r := args_string arg st in
     let next_arg := arg_at st (i + 1) in
     fst r = Some (i + 1, 0) /\
     ((forall f, f ∈ tokens arg -> f `prefix_of` next_arg ->
                 next_arg = f /\ i + 2 < args__argc st) ->
      string_at (snd r) (fst r) = Some next_arg) /\
     ((forall k, strchr next_arg EQUALS = Some k ->
                 next_arg !! S k <> Some DQUOTE) ->
      string_at (snd r) (fst r) = Some next_arg) /\
     (forall f k, f ∈ tokens arg -> f `prefix_of` next_arg ->
        next_arg <> f \/ args__argc st <= i + 2 ->
        strchr next_arg EQUALS = Some k -> next_arg !! S k = Some DQUOTE ->
        string_at (snd r) (fst r) =
        Some (take (k + 2 + quote_run (drop (k + 2) next_arg)) next_arg))).
Proof.
  intros He Hi. split; [intros result; by apply string_body_exact_here|].
  intros arg before after Hs Ha Hf r next_arg. subst next_arg.
  assert (fst r = Some (i + 1, 0)) as Hr.
  { subst r.
    rewrite (args_string_last arg st before (flag, i) after Hs Ha). cbn [fst snd].
    assert (evolved st (snd (string_scan before None st))) as Hev
      by apply evolved_scan, evolved_refl.
    by rewrite (string_body_exact st _ flag i _ Hev Hf He Hi). }
  split; [done|]. rewrite Hr.
  change (string_at (snd r) (Some (i + 1, 0)))
    with (Some (arg_at (snd r) (i + 1))).
  destruct (args_string_leaves arg st (i + 1) ltac:(lia)) as (Hno & Hplain & Hcut).
  replace (i + 1 + 1) with (i + 2) in * by lia.
  split; [|split].
  - intros H. f_equal. by apply Hno.
  - intros H. f_equal. by apply Hplain.
  - intros f k Hin Hp Hne Hk Hq. f_equal. by apply (Hcut f k).
Qed.

Lemma string_exact_capture_witness :
  (let r := args_string (lit "--name")
              (parsed [lit "prog"; lit "--name"; lit "John"; lit "Smith"]) in
   string_at (snd r) (fst r) = Some (lit "John")) /\
  (let r := args_string (lit "-n|--name")
              (parsed [lit "prog"; lit "--name"; lit "--other"; lit "x"]) in
   string_at (snd r) (fst r) = Some (lit "--other")) /\
  (let r := args_string (lit "--name")
              (parsed [lit "prog"; lit "--name";
                       lit "--other=" ++ [DQUOTE] ++ lit "x" ++ [DQUOTE]]) in
   string_at (snd r) (fst r)
   = Some (lit "--other=" ++ [DQUOTE] ++ lit "x" ++ [DQUOTE])) /\
  (let r := args_string (lit "--other|--name")
              (parsed [lit "prog"; lit "--name";
                       lit "--other=" ++ [DQUOTE] ++ lit "x" ++ [DQUOTE]]) in
   string_at (snd r) (fst r) = Some (lit "--other=" ++ [DQUOTE] ++ lit "x")).
Proof.
  split; [|split; [|split]].
  - assert (Forall (unmatched (parsed [lit "prog"; lit "--name"; lit "John"; lit "Smith"]))
              [(lit "--name", 2); (lit "--name", 3)]) as Hafter by decide_now.
    destruct (string_exact_capture
                (parsed [lit "prog"; lit "--name"; lit "John"; lit "Smith"])
                (lit "--name") 1 eq_refl) as [_ Hquery]; [vm_compute; lia|].
    destruct (Hquery (lit "--name") [] [(lit "--name", 2); (lit "--name", 3)]
                eq_refl Hafter) as (_ & _ & Hplain & _); [decide_now|].
    apply Hplain. intros k Hk. vm_compute in Hk. discriminate.
  - assert (Forall (unmatched (parsed [lit "prog"; lit "--name"; lit "--other"; lit "x"]))
              [(lit "--name", 2); (lit "--name", 3)]) as Hafter by decide_now.
    destruct (string_exact_capture
                (parsed [lit "prog"; lit "--name"; lit "--other"; lit "x"])
                (lit "--name") 1 eq_refl) as [_ Hquery]; [vm_compute; lia|].
    destruct (Hquery (lit "-n|--name")
                [(lit "-n", 1); (lit "-n", 2); (lit "-n", 3)]
                [(lit "--name", 2); (lit "--name", 3)] eq_refl Hafter)
      as (_ & _ & Hplain & _); [decide_now|].
    apply Hplain. intros k Hk. vm_compute in Hk. discriminate.
  - assert (Forall (unmatched (parsed [lit "prog"; lit "--name";
                       lit "--other=" ++ [DQUOTE] ++ lit "x" ++ [DQUOTE]]))
              [(lit "--name", 2)]) as Hafter by decide_now.
    destruct (string_exact_capture
                (parsed [lit "prog"; lit "--name";
                         lit "--other=" ++ [DQUOTE] ++ lit "x" ++ [DQUOTE]])
                (lit "--name") 1 eq_refl) as [_ Hquery]; [vm_compute; lia|].
    destruct (Hquery (lit "--name") [] [(lit "--name", 2)] eq_refl Hafter)
      as (_ & Hverbatim & _ & _); [decide_now|].
    apply Hverbatim. intros f Hin Hp. exfalso.
    apply list_elem_of_singleton in Hin. subst f. revert Hp. decide_now.
  - assert (Forall (unmatched (parsed [lit "prog"; lit "--name";
                       lit "--other=" ++ [DQUOTE] ++ lit "x" ++ [DQUOTE]]))
              [(lit "--name", 2)]) as Hafter by decide_now.
    destruct (string_exact_capture
                (parsed [lit "prog"; lit "--name";
                         lit "--other=" ++ [DQUOTE] ++ lit "x" ++ [DQUOTE]])
                (lit "--name") 1 eq_refl) as [_ Hquery]; [vm_compute; lia|].
    destruct (Hquery (lit "--other|--name")
                [(lit "--other", 1); (lit "--other", 2)] [(lit "--name", 2)]
                eq_refl Hafter) as (_ & _ & _ & Hcut); [decide_now|].
    apply (Hcut (lit "--other") 7);
      [decide_now | decide_now | left; discriminate | reflexivity | reflexivity].
Defined.

(** C6 as stated fails twice.  When an alias token of the query is a
    prefix of the argument that follows the exact match and that
    argument holds a quoted value, the scan has overwritten its closing
    quote before the pointer is read: the text is not the argument
    verbatim.  And an exact match with a next argument does not give the
    result when a later position of the scan matches too. *)
Lemma string_exact_capture_counterexample :
  (let st := parsed [lit "prog"; lit "--name";
                     lit "--other=" ++ [DQUOTE] ++ lit "x" ++ [DQUOTE]] in
   let r := args_string (lit "--other|--name") st in
   arg_at st 1 = lit "--name" /\
   arg_at st 2 = lit "--other=" ++ [DQUOTE] ++ lit "x" ++ [DQUOTE] /\
   string_at (snd r) (fst r) = Some (lit "--other=" ++ [DQUOTE] ++ lit "x")) /\
  (let st := parsed [lit "prog"; lit "--name"; lit "John"; lit "--name=Bob"] in
   let r := args_string (lit "--name") st in
   arg_at st 1 = lit "--name" /\
   arg_at st 2 = lit "John" /\
   string_at (snd r) (fst r) = Some (lit "Bob")).
Proof. repeat split. Qed.



(** C8 (frame).  [args_bool], [args_int] and [args_float] leave the two
    statics and every argument buffer as they are.  [args_string] leaves
    [args__argc] and the number of buffers as they are, and each buffer
    either unchanged or changed in one byte only: the buffer belongs to a
    scanned argument that starts with an alias token of the query and
    took the [=] branch, a quote follows its first [=], and the byte
    that was the closing quote of that value is now the terminator. *)
Theorem frame_property {double : Type} (dzero : double)
    (atof : cstring -> double) (st : state) (arg : cstring) :
  snd (args_bool arg st) = st /\
  snd (args_int arg st) = st /\
  snd (args_float dzero atof arg st) = st /\
  let st' := snd (args_string arg st) in
  args__argc st' = args__argc st /\
  length (args__argv st') = length (args__argv st) /\
  forall i b, args__argv st !! i = Some b ->
    args__argv st' !! i = Some b \/
    exists flag k,
      flag ∈ tokens arg /\ 1 <= i < args__argc st /\
      (cstr b <> flag \/ args__argc st <= i + 1) /\
      flag `prefix_of` cstr b /\
      strchr (cstr b) EQUALS = Some k /\
      b !! S k = Some DQUOTE /\
      b !! close_of b k = Some DQUOTE /\
      args__argv st' !! i = Some (<[close_of b k := NUL]> b).
Proof.
  split; [apply args_bool_ro|].
  split; [apply args_int_ro|].
  split; [apply args_float_ro|].
  intros st'. subst st'. rewrite args_string_scan.
  pose proof (scanned_scan [] (scan_order (args__argc st) arg) st st None
                (scanned_nil st)) as (Hc & Hl & Hb).
  rewrite app_nil_l in Hb.
  split; [done|]. split; [done|].
  intros i b Hib. pose proof (arg_buf_lookup st i b Hib) as Eb.
  assert (i < length (args__argv st)) as Hi by (by eapply lookup_lt_Some).
  rewrite lookup_arg_buf by lia.
  destruct (Hb i) as [[-> _]|[-> (flag & Hin & Hy)]]; rewrite Eb in *; [by left|].
  destruct (strip_frame b) as [->|(k & Hk & Hq & Hcl & ->)]; [by left|].
  right. exists flag, k.
  apply elem_of_scan_order in Hin as [Hf Hr].
  unfold eq_branch in Hy. apply andb_true_iff in Hy as [Hn Hp].
  apply bool_decide_eq_true in Hp. apply negb_true_iff, andb_false_iff in Hn.
  repeat split; try done; try lia.
  destruct Hn as [Hn|Hn]; [left; by apply bool_decide_eq_false in Hn|].
  right. by apply Nat.ltb_ge in Hn.
Qed.

Lemma frame_property_witness :
  let john := lit "--name=" ++ [DQUOTE] ++ lit "John Smith" in
  let st := parsed [lit "prog"; john ++ [DQUOTE]; lit "x"] in
  snd (args_bool (lit "--name") st) = st /\
  args__argv (snd (args_string (lit "--name") st)) =
  [lit "prog" ++ [NUL]; john ++ [NUL; NUL]; lit "x" ++ [NUL]].
Proof.
  intros john st.
  destruct (frame_property None Some st (lit "--name"))
    as (Hbool & _ & _ & _ & _ & Hbuf).
  split; [exact Hbool|].
  destruct (Hbuf 1 (john ++ [DQUOTE; NUL]) eq_refl)
    as [Hsame|(flag & k & _ & _ & _ & _ & Hk & _ & _ & Hnew)].
  - vm_compute in Hsame. discriminate Hsame.
  - injection Hk as <-. reflexivity.
Defined.

(** C9 (the same query twice), as the code has it.  [args_bool],
    [args_int] and [args_float] asked again return what they returned.
    A second [args_string] leaves every buffer as the first call left
    it, and when the query string holds no quote character it returns
    the same pointer, hence the same text. *)
Theorem query_twice {double : Type} (dzero : double)
    (atof : cstring -> double) (st : state) (arg : cstring) :
  args_bool arg (snd (args_bool arg st)) = args_bool arg st /\
  args_int arg (snd (args_int arg st)) = args_int arg st /\
  args_float dzero atof arg (snd (args_float dzero atof arg st))
  = args_float dzero atof arg st /\
  let r1 := args_string arg st in
  let r2 := args_string arg (snd r1) in
  snd r2 = snd r1 /\
  (DQUOTE ∉ arg ->
   fst r2 = fst r1 /\ string_at (snd r2) (fst r2) = string_at (snd r1) (fst r1)).
Proof.
  split; [by rewrite args_bool_ro|].
  split; [by rewrite args_int_ro|].
  split; [by rewrite args_float_ro|].
  intros r1 r2. subst r1 r2. rewrite !args_string_scan.
  set (L := scan_order (args__argc st) arg).
  pose proof (scanned_scan [] L st st None (scanned_nil st)) as Hsc.
  rewrite app_nil_l in Hsc. set (st1 := snd (string_scan L None st)) in *.
  assert (args__argc st1 = args__argc st) as -> by apply Hsc.
  fold L.
  assert (snd (string_scan L None st1) = st1) as Hstore.
  { apply string_scan_settled. intros q Hq. by apply (scanned_settled L st). }
  split; [done|]. intros Ha.
  assert (fst (string_scan L None st1) = fst (string_scan L None st)) as Hptr.
  { rewrite (string_scan_captured st st1), (string_scan_captured st st);
      [done | apply evolved_refl | by apply scan_order_no_quote
      | by apply (scanned_evolved L) | by apply scan_order_no_quote]. }
  split; [done|]. by rewrite Hstore, Hptr.
Qed.

Lemma query_twice_witness :
  let st := parsed [lit "prog"; lit "-n=" ++ [DQUOTE] ++ lit "a b" ++ [DQUOTE] ++ lit "c"] in
  let r1 := args_string (lit "-n|--name") st in
  let r2 := args_string (lit "-n|--name") (snd r1) in
  snd r1 <> st /\ snd r2 = snd r1 /\
  string_at (snd r2) (fst r2) = string_at (snd r1) (fst r1).
Proof.
  intros st r1 r2.
  destruct (query_twice None Some st (lit "-n|--name")) as (_ & _ & _ & Hstore & Hres).
  split; [discriminate|]. split; [exact Hstore|].
  apply Hres. decide_now.
Defined.

(** C9 as stated fails for [args_string].  The alias token is the
    argument without its closing quote.  The first call matches the
    argument in the [=] form, returns the quoted text and strips the
    closing quote; the argument is now the token itself, so the second
    call takes the exact branch and returns the next argument. *)
Lemma query_twice_counterexample :
  let spec := lit "--n=" ++ [DQUOTE] ++ lit "a" in
  let st := parsed [lit "prog"; spec ++ [DQUOTE]; lit "Z"] in
  let r1 := args_string spec st in
  let r2 := args_string spec (snd r1) in
  string_at (snd r1) (fst r1) = Some (lit "a") /\
  string_at (snd r2) (fst r2) = Some (lit "Z") /\
  string_at (snd r2) (fst r2) <> string_at (snd r1) (fst r1).
Proof. split; [reflexivity|]. split; [reflexivity | discriminate]. Qed.

(** C10 (an unrecognised [=] value).  An argument that is not the alias
    token itself and whose text after the first [=] is not one of the
    ten words contributes nothing to [args_bool]: it is not taken as a
    bare presence, the scan goes on, and the query returns what the
    other positions of the scan order give (false when none decides). *)
Theorem bool_eq_form_unrecognised (st : state) (arg : cstring) l1 flag i l2 :
  scan_order (args__argc st) arg = l1 ++ (flag, i) :: l2 ->
  arg_at st i <> flag ->
  (forall k, strchr (arg_at st i) EQUALS = Some k ->
             drop (S k) (arg_at st i) ∉ true_values ++ false_values) ->
  args_bool arg st = (default false (fst (bool_scan (l1 ++ l2) st)), st).
Proof.
  intros Hs Ha Hv. rewrite args_bool_scan, Hs.
  rewrite (bool_scan_skip l1 (flag, i) l2); [done|].
  apply (undecided_None st (flag, i)). unfold undecided, decides. cbn [fst snd].
  intros [?|[Hp Hk]]; [done|].
  destruct (strchr (arg_at st i) EQUALS) as [k|] eqn:E; [|done].
  by apply (Hv k).
Qed.

Lemma bool_eq_form_unrecognised_witness :
  (let st := parsed [lit "prog"; lit "--flag=maybe"] in
   args_bool (lit "--flag") st = (false, st)) /\
  (let st := parsed [lit "prog"; lit "--flag=maybe"; lit "--flag"; lit "no"] in
   args_bool (lit "--flag") st = (false, st)) /\
  (let st := parsed [lit "prog"; lit "--flag=maybe"; lit "--flag"] in
   args_bool (lit "--flag") st = (true, st)).
Proof.
  split; [|split]; intros st.
  - apply (bool_eq_form_unrecognised st (lit "--flag") [] (lit "--flag") 1 []
             eq_refl); [discriminate|].
    intros k [= <-]. decide_now.
  - apply (bool_eq_form_unrecognised st (lit "--flag") [] (lit "--flag") 1
             [(lit "--flag", 2); (lit "--flag", 3)] eq_refl); [discriminate|].
    intros k [= <-]. decide_now.
  - apply (bool_eq_form_unrecognised st (lit "--flag") [] (lit "--flag") 1
             [(lit "--flag", 2)] eq_refl); [discriminate|].
    intros k [= <-]. decide_now.
Defined.

(** * Further properties of the code *)

(** ** The [strtok] loop on a query string *)

Lemma cstr_no_NUL b : NUL ∉ cstr b.
Proof.
  induction b as [|c b IH]; simpl; [apply not_elem_of_nil|].
  case_decide as Hc; [apply not_elem_of_nil|].
  apply not_elem_of_cons. split; [congruence | done].
Qed.

Lemma cstr_id s : NUL ∉ s -> cstr s = s.
Proof.
  induction s as [|c s IH]; simpl; [done|]. intros [Hc Hs]%not_elem_of_cons.
  rewrite decide_False by congruence. f_equal. by apply IH.
Qed.

Lemma cstr_app_NUL s t : NUL ∉ s -> cstr (s ++ NUL :: t) = s.
Proof.
  induction s as [|c s IH]; simpl; [done|].
  intros [Hc Hs]%not_elem_of_cons.
  rewrite decide_False by congruence. f_equal. by apply IH.
Qed.

Lemma skip_delim_head d s x t : skip_delim d s = x :: t -> x <> d.
Proof.
  induction s as [|c s IH]; simpl; [done|].
  case_decide as Hc; [done | by intros [= <- <-]].
Qed.

Lemma skip_delim_nil d s : skip_delim d s = [] <-> Forall (fun c => c = d) s.
Proof.
  induction s as [|c s IH]; simpl; [done|]. case_decide as Hc.
  - rewrite IH. split; [by constructor | by inversion 1].
  - split; [done | by inversion 1].
Qed.

Lemma span_delim_take d s : d ∉ take (span_delim d s) s.
Proof.
  induction s as [|c s IH]; simpl; [apply not_elem_of_nil|].
  case_decide as Hc; simpl; [apply not_elem_of_nil|].
  apply not_elem_of_cons. split; [congruence | done].
Qed.

Lemma span_delim_app d f rest :
  d ∉ f -> span_delim d (f ++ d :: rest) = length f /\ span_delim d f = length f.
Proof.
  induction f as [|c f IH]; simpl; [by rewrite decide_True|].
  intros [Hc Hf]%not_elem_of_cons. rewrite !decide_False by congruence.
  destruct (IH Hf) as [-> ->]. done.
Qed.

Lemma strtok_start d c s :
  c <> d ->
  strtok d (c :: s) =
  Some (take (span_delim d (c :: s)) (c :: s),
        drop (S (span_delim d (c :: s))) (c :: s)).
Proof. intros Hc. unfold strtok. cbn [skip_delim]. by rewrite decide_False. Qed.

Lemma strtok_alias f rest :
  f <> [] -> BAR ∉ f ->
  strtok BAR (f ++ BAR :: rest) = Some (f, rest) /\ strtok BAR f = Some (f, []).
Proof.
  intros Hne Hb. destruct f as [|c f]; [done|].
  pose proof Hb as [Hc Hf]%not_elem_of_cons.
  destruct (span_delim_app BAR (c :: f) rest Hb) as [E1 E2].
  split.
  - change ((c :: f) ++ BAR :: rest) with (c :: (f ++ BAR :: rest)) in *.
    rewrite strtok_start, E1 by congruence.
    change (c :: (f ++ BAR :: rest)) with ((c :: f) ++ BAR :: rest).
    rewrite take_app_length. f_equal. f_equal.
    change (S (length (c :: f))) with (1 + length (c :: f)).
    by rewrite Nat.add_comm, <- drop_drop, drop_app_length.
  - rewrite strtok_start, E2 by congruence.
    by rewrite firstn_all, drop_ge by (simpl; lia).
Qed.

Lemma join_no_NUL fs : Forall alias fs -> NUL ∉ join fs.
Proof.
  induction 1 as [|f fs (_ & _ & Hf) Hfs IH]; [apply not_elem_of_nil|].
  destruct fs as [|g fs]; [done|]. cbn [join].
  rewrite not_elem_of_app, not_elem_of_cons. split; [done|]. split; [done | apply IH].
Qed.

Lemma tokens_from_join fs :
  Forall alias fs -> tokens_from (S (length (join fs))) (join fs) = fs.
Proof.
  induction 1 as [|f fs (Hne & Hb & _) Hfs IH]; [done|].
  rewrite tokens_from_unfold. destruct fs as [|g fs].
  - cbn [join]. by rewrite (proj2 (strtok_alias f [] Hne Hb)).
  - change (join (f :: g :: fs)) with (f ++ BAR :: join (g :: fs)).
    by rewrite (proj1 (strtok_alias f _ Hne Hb)), IH.
Qed.

Lemma strtok_token s flag saved :
  strtok BAR s = Some (flag, saved) -> flag <> [] /\ BAR ∉ flag.
Proof.
  unfold strtok. destruct (skip_delim BAR s) as [|x t] eqn:E; [done|].
  intros [= <- <-]. split.
  - apply skip_delim_head in E. simpl. by rewrite decide_False.
  - exact (span_delim_take BAR (x :: t)).
Qed.

Lemma tokens_from_alias fuel s flag :
  NUL ∉ s -> flag ∈ tokens_from fuel s -> alias flag.
Proof.
  intros Hs Hin. split; [|split].
  - revert s Hs Hin. induction fuel as [|n IH]; intros s Hs; simpl;
      [by intros ?%elem_of_nil|].
    destruct (strtok BAR s) as [[f saved]|] eqn:E; [|by intros ?%elem_of_nil].
    intros [->|Hin]%elem_of_cons; [by apply (strtok_token _ _ _ E)|].
    apply (IH saved); [|done]. intros Hn. apply Hs.
    apply (strtok_sub _ _ _ _ _ E). by right.
  - revert s Hs Hin. induction fuel as [|n IH]; intros s Hs; simpl;
      [by intros ?%elem_of_nil|].
    destruct (strtok BAR s) as [[f saved]|] eqn:E; [|by intros ?%elem_of_nil].
    intros [->|Hin]%elem_of_cons; [by apply (strtok_token _ _ _ E)|].
    apply (IH saved); [|done]. intros Hn. apply Hs.
    apply (strtok_sub _ _ _ _ _ E). by right.
  - intros Hn. apply Hs. by apply (tokens_from_sub fuel s flag).
Qed.

Lemma tokens_nil arg : tokens arg = [] <-> Forall (fun c => c = BAR) (cstr arg).
Proof.
  unfold tokens. rewrite <- skip_delim_nil. cbn [tokens_from]. unfold strtok.
  destruct (skip_delim BAR (cstr arg)); [done|]. split; discriminate.
Qed.

Lemma scan_order_nil argc arg : tokens arg = [] -> scan_order argc arg = [].
Proof. unfold scan_order. by intros ->. Qed.

(** X1 (splitting a query string).  Joining alias spellings with the
    separator and splitting the result gives the spellings back, in
    order; and whatever the query string, each token the loop hands to
    the scan is not empty and holds neither separator nor terminator, so
    leading, trailing and doubled separators yield no empty alias. *)
Theorem tokens_join (fs : list cstring) (arg : cstring) :
  (Forall alias fs -> tokens (join fs) = fs) /\
  (forall flag, flag ∈ tokens arg -> alias flag).
Proof.
  split.
  - intros Hfs. unfold tokens. rewrite (cstr_id _ (join_no_NUL fs Hfs)).
    by apply tokens_from_join.
  - intros flag. unfold tokens. apply tokens_from_alias, cstr_no_NUL.
Qed.

Lemma tokens_join_witness :
  tokens (join [lit "-h"; lit "--help"; lit "help"])
  = [lit "-h"; lit "--help"; lit "help"] /\
  alias (lit "-c").
Proof.
  destruct (tokens_join [lit "-h"; lit "--help"; lit "help"] (lit "|-c||"))
    as [Hjoin Halias].
  split.
  - apply Hjoin. repeat constructor; try discriminate; by apply (bool_decide_unpack _).
  - apply Halias. apply (bool_decide_unpack _). vm_compute. exact I.
Defined.

(** X2 (a query string without alias).  When every byte of the query
    string before its terminator is a separator, the empty string
    included, the loop over the tokens runs zero times: on every store
    the four queries return their defaults and write nothing. *)
Theorem empty_query {double : Type} (dzero : double)
    (atof : cstring -> double) (st : state) (arg : cstring) :
  Forall (fun c => c = BAR) (cstr arg) ->
  args_bool arg st = (false, st) /\
  args_int arg st = (0%Z, st) /\
  args_float dzero atof arg st = (dzero, st) /\
  args_string arg st = (None, st).
Proof.
  intros H%tokens_nil.
  pose proof (scan_order_nil (args__argc st) arg H) as Hs.
  split; [|split; [|split]].
  - apply args_bool_idle. rewrite Hs. constructor.
  - apply args_int_idle. rewrite Hs. constructor.
  - apply args_float_idle. rewrite Hs. constructor.
  - apply args_string_idle. rewrite Hs. constructor.
Qed.

Lemma empty_query_witness :
  let st := parsed [lit "prog"; lit "|"; lit "=5"; lit ""] in
  (args_bool [] st = (false, st) /\ args_int [] st = (0%Z, st) /\
   args_float None Some [] st = (None, st) /\ args_string [] st = (None, st)) /\
  (args_bool (lit "||") st = (false, st) /\ args_int (lit "||") st = (0%Z, st) /\
   args_float None Some (lit "||") st = (None, st) /\
   args_string (lit "||") st = (None, st)).
Proof.
  intros st. split.
  - apply (empty_query None Some st []). constructor.
  - apply (empty_query None Some st (lit "||")). by repeat constructor.
Defined.

(** ** Command lines as the C runtime registers them *)

Lemma parsed_argc l : args__argc (parsed l) = length l.
Proof. done. Qed.

Lemma parsed_arg_at l i a :
  l !! i = Some a -> NUL ∉ a -> arg_at (parsed l) i = a.
Proof.
  intros Hi Ha. unfold arg_at, deref, arg_buf, parsed, args_parse, argv_of.
  cbn [fst snd args__argv]. rewrite list_lookup_fmap, Hi. cbn [fmap option_fmap option_map default].
  rewrite drop_0. by apply cstr_app_NUL.
Qed.

Lemma tokens_alias F : alias F -> tokens F = [F].
Proof.
  intros HF. unfold tokens. rewrite (cstr_id F) by apply HF.
  apply (tokens_from_join [F]). by constructor.
Qed.

Lemma scan_order_alias argc F :
  alias F -> scan_order argc F = pair F <$> indices argc.
Proof.
  intros HF. unfold scan_order. rewrite (tokens_alias F HF).
  rewrite bind_cons. apply app_nil_r.
Qed.

Lemma strchr_app s (c : ascii) t : c ∉ s -> strchr (s ++ c :: t) c = Some (length s).
Proof.
  induction s as [|x s IH]; simpl; [by rewrite decide_True|].
  intros [Hx Hs]%not_elem_of_cons. rewrite decide_False by congruence.
  by rewrite (IH Hs).
Qed.

(** ** A flag name that only starts an argument *)

(** The shape [F junk = v] of an argument, for a token [F] without [=]. *)
Lemma loose_shape F junk v :
  EQUALS ∉ F ++ junk ->
  let a := F ++ junk ++ EQUALS :: v in
  a <> F /\ F `prefix_of` a /\
  strchr a EQUALS = Some (length (F ++ junk)) /\
  drop (S (length (F ++ junk))) a = v.
Proof.
  intros He a. subst a. rewrite (assoc_L (++) F junk).
  split; [|split; [|split]].
  - intros E. apply He. rewrite not_elem_of_app in He.
    assert (EQUALS ∈ F) as Hin; [|by destruct He].
    rewrite <- E. rewrite elem_of_app. right. left.
  - rewrite <- (assoc_L (++)). by apply prefix_app_r.
  - by apply strchr_app.
  - change (S (length (F ++ junk))) with (1 + length (F ++ junk)).
    by rewrite Nat.add_comm, <- drop_drop, drop_app_length.
Qed.

(** X3 (a flag name is matched as a prefix).  The [=] branch compares
    only the first [strlen(flag)] bytes, so an argument [F junk = v] is
    read as [F = v] whatever the bytes between the alias and the first
    [=] are: on the command line [prog F junk=v], [args_int] and
    [args_float] parse [v], [args_bool] tells whether [v] is a truthy
    word, and [args_string] returns [v] when it does not start with a
    quote. *)
Theorem flag_matched_as_prefix {double : Type} (dzero : double)
    (atof : cstring -> double) (prog F junk v : cstring) :
  alias F ->
  EQUALS ∉ F ++ junk ->
  NUL ∉ junk ++ v ->
  let st := parsed [prog; F ++ junk ++ EQUALS :: v] in
  fst (args_int F st) = atoi v /\
  fst (args_float dzero atof F st) = atof v /\
  fst (args_bool F st) = bool_decide (v ∈ true_values) /\
  (DQUOTE ∉ F -> head v <> Some DQUOTE ->
   let r := args_string F st in string_at (snd r) (fst r) = Some v).
Proof.
  intros HF He Hn st.
  assert (arg_at st 1 = F ++ junk ++ EQUALS :: v) as Ha.
  { apply parsed_arg_at; [done|]. destruct HF as (_ & _ & HF).
    rewrite not_elem_of_app in Hn. destruct Hn as [Hj Hv].
    rewrite !not_elem_of_app, not_elem_of_cons.
    split; [done|]. split; [done|]. split; [discriminate | done]. }
  destruct (loose_shape F junk v He) as (Hne & Hp & Hk & Hv).
  rewrite <- Ha in Hne, Hp, Hk, Hv.
  assert (scan_order (args__argc st) F = [] ++ (F, 1) :: []) as Hs
    by (by rewrite (scan_order_alias _ F HF)).
  destruct (eq_form_numeric dzero atof st F [] F 1 [] _ Hs (Forall_nil_2 _)
              Hne Hp Hk) as [Hi Hf].
  rewrite Hv in Hi, Hf. split; [done|]. split; [done|]. split.
  - rewrite (args_bool_first F st [] (F, 1) [] Hs (Forall_nil_2 _)). cbn [fst snd].
    rewrite (bool_body_eq_form st F 1 _ Hne Hp Hk), Hv.
    by repeat case_bool_decide.
  - intros Hq Hh r. subst r.
    rewrite (args_string_last F st [] (F, 1) [] Hs (Forall_nil_2 _)). cbn [fst snd].
    destruct (string_body_eq_form st st F 1 _ None (evolved_refl st) Hq
                (or_introl Hne) Hp Hk) as (Hr & Hb & _).
    assert (arg_at st 1 !! S (length (F ++ junk)) <> Some DQUOTE) as Hnq.
    { rewrite <- (Nat.add_0_r (S _)), <- lookup_drop, Hv. by destruct v. }
    cbn [string_scan foldM ret fst snd] in *.
    rewrite decide_False in Hr by done. rewrite Hr.
    unfold string_at, deref. simpl. rewrite Hb, Nat.add_1_r.
    rewrite arg_at_cstr in *. rewrite strip_plain.
    + rewrite cstr_drop by (apply strchr_lt in Hk; lia). by rewrite Hv.
    + intros k' Hk' Hq'. assert (k' = length (F ++ junk)) as -> by congruence.
      apply Hnq. apply cstr_lookup_inside; [apply strchr_lt in Hk; lia | done | done].
Qed.

Lemma flag_matched_as_prefix_witness :
  let st := parsed [lit "prog"; lit "-count=3"] in
  fst (args_int (lit "-c") st) = 3%Z /\
  fst (args_float None Some (lit "-c") st) = Some (lit "3") /\
  fst (args_bool (lit "-c") st) = false /\
  string_at (snd (args_string (lit "-c") st)) (fst (args_string (lit "-c") st))
  = Some (lit "3").
Proof.
  intros st.
  destruct (flag_matched_as_prefix None Some (lit "prog") (lit "-c") (lit "ount") (lit "3"))
    as (Hi & Hf & Hb & Hs); [| decide_now | decide_now |].
  - repeat split; [discriminate | decide_now | decide_now].
  - split; [exact Hi|]. split; [exact Hf|]. split; [exact Hb|].
    apply Hs; [decide_now | discriminate].
Defined.

(** ** A flag that ends the command line *)

Lemma int_body_bare_last st F i result :
  arg_at st i = F -> args__argc st <= i + 1 ->
  fst (int_body F i result st) = result.
Proof.
  intros Ha Hi. rewrite int_body_fst. cbn zeta.
  apply Nat.ltb_ge in Hi. by rewrite bool_decide_eq_true_2, Hi.
Qed.

Lemma float_body_bare_last {double} (atof : cstring -> double) st F i result :
  arg_at st i = F -> args__argc st <= i + 1 ->
  fst (float_body atof F i result st) = result.
Proof.
  intros Ha Hi. rewrite float_body_fst. cbn zeta.
  apply Nat.ltb_ge in Hi. by rewrite bool_decide_eq_true_2, Hi.
Qed.

Lemma string_body_bare_last st F i result :
  arg_at st i = F -> args__argc st <= i + 1 -> EQUALS ∉ F ->
  string_body F i result st = (result, st).
Proof.
  intros Ha Hi He. rewrite string_body_run, (alter_arg_buf (edit _ _ _)).
  rewrite arg_at_cstr in Ha. apply Nat.ltb_ge in Hi.
  assert (strchr (cstr (arg_buf st i)) EQUALS = None) as Hn
    by (apply strchr_None; by rewrite Ha).
  unfold capture, edit, eq_branch. rewrite Hi, andb_false_r. cbn [negb andb].
  rewrite bool_decide_eq_true_2 by (by rewrite Ha). rewrite Hn.
  rewrite strip_plain by (intros k; congruence).
  cbn [from_option]. rewrite alter_keep. by destruct st.
Qed.

(** The command line [prog rest... F]: what is scanned for the alias [F]. *)
Lemma trailing_flag_scan prog rest F :
  alias F ->
  Forall (fun a => (NUL ∉ a) /\ ~ matches a F) rest ->
  let st := parsed (prog :: rest ++ [F]) in
  let last := S (length rest) in
  scan_order (args__argc st) F = (pair F <$> seq 1 (length rest)) ++ [(F, last)] /\
  Forall (unmatched st) (pair F <$> seq 1 (length rest)) /\
  arg_at st last = F /\
  args__argc st <= last + 1.
Proof.
  intros HF Hrest st last. subst st last.
  split; [|split; [|split]].
  - rewrite (scan_order_alias _ F HF), parsed_argc. unfold indices.
    cbn [length]. rewrite length_app. cbn [length].
    replace (S (length rest + 1) - 1) with (S (length rest)) by lia.
    by rewrite seq_S, fmap_app.
  - apply Forall_fmap, Forall_forall. intros i [Hi1 Hi2]%elem_of_seq.
    unfold unmatched, compose. cbn [fst snd].
    destruct i as [|i]; [lia|].
    destruct (lookup_lt_is_Some_2 rest i) as [a Ha]; [lia|].
    rewrite (parsed_arg_at _ (S i) a).
    + by apply (Forall_lookup_1 _ _ _ _ Hrest Ha).
    + cbn [lookup list_lookup]. by apply lookup_app_l_Some.
    + by apply (Forall_lookup_1 _ _ _ _ Hrest Ha).
  - apply parsed_arg_at; [|apply HF]. cbn [lookup list_lookup].
    by apply list_lookup_middle.
  - rewrite parsed_argc. cbn [length]. rewrite length_app. simpl. lia.
Qed.

(** X4 (a flag without value at the end of the command line).  On
    [prog rest... F], where [F] has no [=] and nothing in [rest] matches
    it, [F] is the last argument and no value follows: [args_bool]
    returns true, [args_int] 0, [args_float] its zero and [args_string]
    the null pointer, and nothing is written. *)
Theorem flag_without_value {double : Type} (dzero : double)
    (atof : cstring -> double) (prog : cstring) (rest : list cstring) (F : cstring) :
  alias F ->
  EQUALS ∉ F ->
  Forall (fun a => (NUL ∉ a) /\ ~ matches a F) rest ->
  let st := parsed (prog :: rest ++ [F]) in
  args_bool F st = (true, st) /\
  args_int F st = (0%Z, st) /\
  args_float dzero atof F st = (dzero, st) /\
  args_string F st = (None, st).
Proof.
  intros HF He Hrest st.
  destruct (trailing_flag_scan prog rest F HF Hrest) as (Hs & Hu & Ha & Hi).
  fold st in Hs, Hu, Ha, Hi.
  split; [|split; [|split]].
  - rewrite (args_bool_first F st _ _ [] Hs). cbn [fst snd].
    + rewrite (bool_body_exact st F _ Ha).
      apply Nat.ltb_ge in Hi. by rewrite Hi.
    + eapply Forall_impl; [exact Hu|]. apply unmatched_undecided.
  - rewrite args_int_scan, Hs.
    apply (foldM_ro_idle (fun q => int_body q.1 q.2)).
    + intros x a. apply int_body_ro.
    + apply Forall_app. split.
      * eapply Forall_impl; [exact Hu|]. intros x Hx a. by apply unmatched_int.
      * constructor; [|constructor]. intros a. by apply int_body_bare_last.
  - rewrite args_float_scan, Hs.
    apply (foldM_ro_idle (fun q => float_body atof q.1 q.2)).
    + intros x a. apply float_body_ro.
    + apply Forall_app. split.
      * eapply Forall_impl; [exact Hu|]. intros x Hx a. by apply unmatched_float.
      * constructor; [|constructor]. intros a. by apply float_body_bare_last.
  - rewrite args_string_scan, Hs, string_scan_app.
    rewrite (string_scan_idle st st _ None (evolved_refl st) Hu).
    cbn [fst snd string_scan foldM]. unfold bind.
    by rewrite (string_body_bare_last st F _ None Ha Hi He).
Qed.

Lemma flag_without_value_witness :
  let st := parsed [lit "prog"; lit "in.txt"; lit "-o"; lit "--name"] in
  args_bool (lit "--name") st = (true, st) /\
  args_int (lit "--name") st = (0%Z, st) /\
  args_float None Some (lit "--name") st = (None, st) /\
  args_string (lit "--name") st = (None, st).
Proof.
  apply (flag_without_value None Some (lit "prog") [lit "in.txt"; lit "-o"] (lit "--name")).
  - repeat split; [discriminate | decide_now | decide_now].
  - decide_now.
  - repeat constructor; decide_now.
Defined.

(** ** The loops look at the scanned arguments only *)

Lemma firstM_ro_ext {A B} (body : B -> M (option A)) l st st' :
  (forall x, read_only (body x)) ->
  Forall (fun x => fst (body x st') = fst (body x st)) l ->
  fst (firstM body l st') = fst (firstM body l st).
Proof.
  intros Hro Hl. induction Hl as [|x l Hx _ IH]; [done|].
  simpl. unfold bind. rewrite !Hro, Hx.
  by destruct (fst (body x st)).
Qed.

Lemma foldM_ro_ext {A B} (body : B -> A -> M A) l a st st' :
  (forall x a, read_only (body x a)) ->
  Forall (fun x => forall a, fst (body x a st') = fst (body x a st)) l ->
  fst (foldM body l a st') = fst (foldM body l a st).
Proof.
  intros Hro Hl. revert a. induction Hl as [|x l Hx _ IH]; intros a; [done|].
  simpl. unfold bind. by rewrite !Hro, Hx, IH.
Qed.

Lemma same_args_arg_at st st' i :
  same_args st st' -> 1 <= i < args__argc st -> arg_at st' i = arg_at st i.
Proof. intros [_ H] Hi. by rewrite !arg_at_cstr, H. Qed.

Lemma bool_body_same st st' flag i :
  same_args st st' -> 1 <= i < args__argc st ->
  fst (bool_body flag i st') = fst (bool_body flag i st).
Proof.
  intros Hs Hi. rewrite !bool_body_fst. cbn zeta.
  rewrite (same_args_arg_at st st' i Hs Hi), (proj1 Hs).
  destruct (i + 1 <? args__argc st) eqn:E; [|done].
  apply Nat.ltb_lt in E. by rewrite (same_args_arg_at st st' (i + 1) Hs) by lia.
Qed.

Lemma int_body_same st st' flag i result :
  same_args st st' -> 1 <= i < args__argc st ->
  fst (int_body flag i result st') = fst (int_body flag i result st).
Proof.
  intros Hs Hi. rewrite !int_body_fst. cbn zeta.
  rewrite (same_args_arg_at st st' i Hs Hi), (proj1 Hs).
  destruct (i + 1 <? args__argc st) eqn:E; [|done].
  apply Nat.ltb_lt in E. by rewrite (same_args_arg_at st st' (i + 1) Hs) by lia.
Qed.

Lemma float_body_same {double} (atof : cstring -> double) st st' flag i result :
  same_args st st' -> 1 <= i < args__argc st ->
  fst (float_body atof flag i result st') = fst (float_body atof flag i result st).
Proof.
  intros Hs Hi. rewrite !float_body_fst. cbn zeta.
  rewrite (same_args_arg_at st st' i Hs Hi), (proj1 Hs).
  destruct (i + 1 <? args__argc st) eqn:E; [|done].
  apply Nat.ltb_lt in E. by rewrite (same_args_arg_at st st' (i + 1) Hs) by lia.
Qed.

Lemma scan_order_range argc arg :
  Forall (fun q => 1 <= q.2 < argc) (scan_order argc arg).
Proof.
  apply Forall_forall. intros [flag i] Hq. by apply elem_of_scan_order in Hq as [_ ?].
Qed.

Lemma string_body_argc flag i result s :
  args__argc (snd (string_body flag i result s)) = args__argc s.
Proof. by rewrite string_body_run. Qed.

Lemma string_body_same s s' flag i result :
  same_args s s' -> 1 <= i < args__argc s ->
  fst (string_body flag i result s') = fst (string_body flag i result s) /\
  same_args (snd (string_body flag i result s)) (snd (string_body flag i result s')).
Proof.
  intros [Hc Hb] Hi. rewrite !string_body_run. cbn [fst snd].
  rewrite Hc, (Hb i Hi). split; [done|]. split; [by cbn [args__argc]|].
  intros j Hj. cbn [args__argc] in Hj. rewrite !arg_buf_edit.
  case_decide; [by rewrite (Hb i Hi) | by apply Hb].
Qed.

Lemma string_scan_same l result s s' :
  same_args s s' -> Forall (fun q => 1 <= q.2 < args__argc s) l ->
  fst (string_scan l result s') = fst (string_scan l result s) /\
  same_args (snd (string_scan l result s)) (snd (string_scan l result s')).
Proof.
  intros Hs Hl. revert result s s' Hs Hl.
  induction l as [|q l IH]; intros result s s' Hs Hl; [done|].
  apply Forall_cons in Hl as [Hq Hl]. rewrite !string_scan_cons.
  destruct (string_body_same s s' q.1 q.2 result Hs Hq) as [-> Hs'].
  apply IH; [done|]. by rewrite string_body_argc.
Qed.

(** ** The pointer [args_string] returns stays inside its argument *)

Lemma strip_edit flag i argc b : strip (edit flag i argc b) = strip b.
Proof.
  destruct (edit_cases flag i argc b) as [->|[_ ->]]; [done | apply strip_idemp].
Qed.

Lemma strip_arg_buf_step flag i result s j :
  strip (arg_buf (snd (string_body flag i result s)) j) = strip (arg_buf s j).
Proof.
  rewrite string_body_run. cbn [snd]. rewrite arg_buf_edit.
  case_decide; [subst; apply strip_edit | done].
Qed.

Lemma capture_inside flag i argc b p :
  capture flag i argc b = Some p ->
  (p = (i + 1, 0) /\ i + 1 < argc) \/
  (p.1 = i /\ p.2 <= length (cstr (strip b))).
Proof.
  unfold capture.
  destruct (bool_decide (cstr b = flag) && (i + 1 <? argc)) eqn:E1.
  { intros [= <-]. left. apply andb_true_iff in E1 as [_ E1].
    by apply Nat.ltb_lt in E1. }
  destruct (bool_decide (flag `prefix_of` cstr b)); [|done].
  destruct (strchr (cstr b) EQUALS) as [k|] eqn:Hk; [|done].
  destruct (decide (b !! S k = Some DQUOTE)) as [Hq|Hq]; intros [= <-]; right.
  - split; [done|]. cbn [snd]. rewrite (cstr_strip b k Hk Hq).
    pose proof (close_of_bounds b k Hk Hq). rewrite length_take. lia.
  - split; [done|]. cbn [snd]. rewrite strip_plain.
    + apply strchr_lt in Hk. lia.
    + intros k' Hk'. congruence.
Qed.

Lemma string_body_ptr_ok flag i result s :
  1 <= i < args__argc s -> ptr_ok s result ->
  ptr_ok (snd (string_body flag i result s)) (fst (string_body flag i result s)).
Proof.
  intros Hi Hok j k Hr. rewrite string_body_argc, strip_arg_buf_step.
  rewrite string_body_run in Hr. cbn [fst] in Hr.
  destruct (capture flag i (args__argc s) (arg_buf s i)) as [p|] eqn:Ec;
    cbn [from_option] in Hr; [|by apply Hok].
  injection Hr as ->.
  apply capture_inside in Ec as [[[= -> ->] Hlt]|[Hp1 Hp2]]; cbn [fst snd] in *.
  - split; lia.
  - subst j. done.
Qed.

Lemma string_scan_ptr_ok l result s :
  Forall (fun q => 1 <= q.2 < args__argc s) l -> ptr_ok s result ->
  ptr_ok (snd (string_scan l result s)) (fst (string_scan l result s)).
Proof.
  revert result s. induction l as [|q l IH]; intros result s Hl Hok; [done|].
  apply Forall_cons in Hl as [Hq Hl]. rewrite string_scan_cons.
  apply IH; [by rewrite string_body_argc | by apply string_body_ptr_ok].
Qed.

Lemma ptr_ok_None s : ptr_ok s None.
Proof. by intros i k. Qed.

Lemma args_string_ptr_ok arg st :
  ptr_ok (snd (args_string arg st)) (fst (args_string arg st)).
Proof.
  rewrite args_string_scan.
  apply string_scan_ptr_ok; [apply scan_order_range | apply ptr_ok_None].
Qed.

(** X5 (the program name is never looked at).  Every loop starts at
    index 1 and stops before [args__argc]: two stores that agree on
    [args__argc] and on the arguments at those indices give the same
    results for the four queries, whatever [args__argv[0]] and the
    entries past [args__argc] hold; [args_string] leaves the two stores
    in agreement again, returns the same text, and writes to no buffer
    outside those indices. *)
Theorem queries_look_at_scanned_arguments_only {double : Type} (dzero : double)
    (atof : cstring -> double) (st st' : state) (arg : cstring) :
  same_args st st' ->
  fst (args_bool arg st') = fst (args_bool arg st) /\
  fst (args_int arg st') = fst (args_int arg st) /\
  fst (args_float dzero atof arg st') = fst (args_float dzero atof arg st) /\
  let r := args_string arg st in
  let r' := args_string arg st' in
  fst r' = fst r /\
  same_args (snd r) (snd r') /\
  string_at (snd r') (fst r') = string_at (snd r) (fst r) /\
  (forall j, ~ 1 <= j < args__argc st ->
             args__argv (snd r) !! j = args__argv st !! j).
Proof.
  intros Hs. pose proof (proj1 Hs) as Hc.
  pose proof (scan_order_range (args__argc st) arg) as Hr.
  split; [|split; [|split]].
  - rewrite !args_bool_scan, Hc. cbn [fst]. f_equal.
    apply (firstM_ro_ext (fun q => bool_body q.1 q.2));
      [intros x; apply bool_body_ro|].
    eapply Forall_impl; [exact Hr|]. intros q Hq. by apply bool_body_same.
  - rewrite !args_int_scan, Hc.
    apply (foldM_ro_ext (fun q => int_body q.1 q.2));
      [intros x a; apply int_body_ro|].
    eapply Forall_impl; [exact Hr|]. intros q Hq a. by apply int_body_same.
  - rewrite !args_float_scan, Hc.
    apply (foldM_ro_ext (fun q => float_body atof q.1 q.2));
      [intros x a; apply float_body_ro|].
    eapply Forall_impl; [exact Hr|]. intros q Hq a. by apply float_body_same.
  - intros r r'. pose proof (args_string_ptr_ok arg st) as Hok. fold r in Hok.
    assert (args__argc (snd r) = args__argc st) as Hcr.
    { subst r. rewrite args_string_scan.
      apply (evolved_scan st st), evolved_refl. }
    subst r r'. rewrite !args_string_scan, Hc in *.
    destruct (string_scan_same (scan_order (args__argc st) arg) None st st' Hs Hr)
      as [Hp Hs'].
    split; [done|]. split; [done|]. split.
    + rewrite Hp.
      destruct (fst (string_scan _ None st)) as [[i k]|] eqn:E; [|done].
      destruct (Hok i k eq_refl) as [Hi _]. rewrite Hcr in Hi.
      unfold string_at, deref. cbn [fmap option_fmap option_map fst snd].
      rewrite (proj2 Hs' i); [done|]. by rewrite Hcr.
    + intros j Hj.
      pose proof (scanned_scan [] (scan_order (args__argc st) arg) st st None
                    (scanned_nil st)) as (_ & Hl & Hb).
      rewrite app_nil_l in Hb.
      destruct (Hb j) as [[Hj' _]|[_ (flag & Hin & _)]].
      * destruct (decide (j < length (args__argv st))) as [Hlt|Hge].
        -- by rewrite !lookup_arg_buf, Hj' by lia.
        -- by rewrite !lookup_ge_None_2 by lia.
      * apply elem_of_scan_order in Hin as [_ Hin]. lia.
Qed.

Lemma queries_look_at_scanned_arguments_only_witness :
  let st := parsed [lit "prog"; lit "--name=x"; lit "-n"; lit "7"] in
  let st' := State 4 (argv_of [lit "--name=y"; lit "--name=x"; lit "-n"; lit "7";
                               lit "-n"; lit "9"]) in
  fst (args_int (lit "-n") st') = fst (args_int (lit "-n") st) /\
  fst (args_bool (lit "--name") st') = fst (args_bool (lit "--name") st) /\
  string_at (snd (args_string (lit "--name") st')) (fst (args_string (lit "--name") st'))
  = string_at (snd (args_string (lit "--name") st)) (fst (args_string (lit "--name") st)).
Proof.
  intros st st'.
  assert (same_args st st') as Hs.
  { split; [reflexivity|]. intros i Hi. cbn [st parsed args_parse snd args__argc length] in Hi.
    destruct i as [|[|[|[|i]]]]; try lia; reflexivity. }
  split; [|split].
  - apply (queries_look_at_scanned_arguments_only None Some st st' (lit "-n") Hs).
  - apply (queries_look_at_scanned_arguments_only None Some st st' (lit "--name") Hs).
  - apply (queries_look_at_scanned_arguments_only None Some st st' (lit "--name") Hs).
Defined.

(** ** Terminated buffers stay terminated *)

Lemma cstr_lt_NUL b : NUL ∈ b -> length (cstr b) < length b.
Proof.
  induction b as [|c b IH]; simpl; [by intros ?%elem_of_nil|].
  case_decide as Hc; simpl; [lia|].
  intros [?|Hin]%elem_of_cons; [congruence|]. apply IH in Hin. lia.
Qed.

Lemma insert_NUL_keeps (b : buffer) q : NUL ∈ b -> NUL ∈ <[q := NUL]> b.
Proof.
  intros Hin. destruct (decide (q < length b)) as [Hq|Hq].
  - apply (list_elem_of_lookup_2 _ q). by apply list_lookup_insert_eq.
  - by rewrite list_insert_ge by lia.
Qed.

Lemma strip_NUL b : NUL ∈ b -> NUL ∈ strip b.
Proof.
  intros Hin. unfold strip. destruct (strchr (cstr b) EQUALS); [|done].
  case_decide; [by apply insert_NUL_keeps | done].
Qed.

(** X6 (memory safety of [args_string]).  The pointer [args_string]
    returns names a scanned argument and an offset no further than the
    end of that argument as the call leaves it; the edit only shortens
    arguments; and when every registered argument is terminated, every
    argument still is after the call, so the returned pointer lies
    inside its buffer and the text read through it ends inside it. *)
Theorem string_result_in_bounds (st : state) (arg : cstring) :
  let r := args_string arg st in
  (forall i, arg_at (snd r) i `prefix_of` arg_at st i) /\
  (forall i k, fst r = Some (i, k) ->
     1 <= i < args__argc st /\ k <= length (arg_at (snd r) i)) /\
  (terminated st ->
   terminated (snd r) /\
   forall i k, fst r = Some (i, k) ->
     k + length (deref (snd r) (i, k)) < length (arg_buf (snd r) i)).
Proof.
  intros r. pose proof (args_string_ptr_ok arg st) as Hok. fold r in Hok.
  assert (evolved st (snd r)) as Hev.
  { subst r. rewrite args_string_scan. apply evolved_scan, evolved_refl. }
  destruct Hev as (Hc & Hl & Hb).
  assert (forall i k, fst r = Some (i, k) ->
            1 <= i < args__argc st /\ k <= length (arg_at (snd r) i)) as Hptr.
  { intros i k Hr. destruct (Hok i k Hr) as [Hi Hk]. rewrite Hc in Hi.
    split; [done|]. rewrite arg_at_cstr.
    pose proof (prefix_length _ _ (strip_prefix (arg_buf (snd r) i))). lia. }
  split; [|split; [done|]].
  - intros i. rewrite !arg_at_cstr.
    destruct (Hb i) as [->| ->]; [done | apply strip_prefix].
  - intros Ht.
    assert (terminated (snd r)) as Ht'.
    { intros i Hi. rewrite Hc in Hi. destruct (Ht i Hi) as (b & Hib & Hn).
      exists (arg_buf (snd r) i). split.
      - apply lookup_arg_buf. rewrite Hl. by eapply lookup_lt_Some.
      - pose proof (Hb i) as Hbi. rewrite (arg_buf_lookup st i b Hib) in Hbi.
        destruct Hbi as [->| ->]; [done | by apply strip_NUL]. }
    split; [done|]. intros i k Hr. destruct (Hptr i k Hr) as [Hi Hk].
    destruct (Ht' i) as (b & Hib & Hn); [lia|].
    rewrite (arg_buf_lookup _ i b Hib). apply cstr_lt_NUL in Hn.
    rewrite arg_at_cstr, (arg_buf_lookup _ i b Hib) in Hk.
    unfold deref. cbn [fst snd]. rewrite (arg_buf_lookup _ i b Hib).
    rewrite cstr_drop, length_drop by done. lia.
Qed.

Lemma string_result_in_bounds_witness :
  let st := parsed [lit "prog"; lit "--name=" ++ [DQUOTE] ++ lit "a b" ++ [DQUOTE] ++ lit "c"] in
  let r := args_string (lit "--name") st in
  terminated (snd r) /\
  fst r = Some (1, 8) /\
  8 + length (deref (snd r) (1, 8)) < length (arg_buf (snd r) 1).
Proof.
  intros st r.
  destruct (string_result_in_bounds st (lit "--name")) as (_ & _ & Hsafe).
  destruct Hsafe as [Ht Hin].
  - intros i Hi. cbn [st parsed args_parse snd args__argc length] in Hi.
    destruct i as [|[|i]]; [| |lia]; eexists; (split; [reflexivity | decide_now]).
  - split; [exact Ht|]. split; [reflexivity|]. by apply Hin.
Defined.

(** ** What the other queries see of a stripped argument *)

Lemma digits_take s q k acc :
  strchr s EQUALS = Some k -> k < q -> digits (take q s) acc = digits s acc.
Proof.
  revert q k acc. induction s as [|c s IH]; intros q k acc; simpl; [done|].
  case_decide as Hc.
  - subst c. intros [= <-] Hq. destruct q; [lia|]. done.
  - destruct (strchr s EQUALS) as [k'|] eqn:E; simpl; [|done].
    intros [= <-] Hq. destruct q as [|q]; [lia|]. simpl.
    destruct (isdigit c); [|done]. apply (IH q k'); [done | lia].
Qed.

Lemma atoi_take s q k :
  strchr s EQUALS = Some k -> k < q -> atoi (take q s) = atoi s.
Proof.
  revert q k. induction s as [|c s IH]; intros q k; simpl; [done|].
  case_decide as Hc.
  - subst c. intros [= <-] Hq. destruct q; [lia|]. done.
  - destruct (strchr s EQUALS) as [k'|] eqn:E; simpl; [|done].
    intros [= <-] Hq. destruct q as [|q]; [lia|]. cbn [take].
    unfold atoi. cbn [skip_space]. destruct (isspace c) eqn:Es.
    + apply (IH q k'); [done | lia].
    + repeat case_decide; f_equal; rewrite ?(digits_take s q k' 0%Z E) by lia;
        try done.
      cbn [digits]. destruct (isdigit c); [|done].
      by rewrite (digits_take s q k' _ E) by lia.
Qed.

Lemma atoi_stops : stops_at_equals atoi.
Proof. split; [apply atoi_take | done]. Qed.

Lemma lower_equals s : EQUALS ∈ s -> EQUALS ∈ lower s.
Proof.
  induction s as [|c s IH]; [by intros ?%elem_of_nil|].
  intros [<-|Hin]%elem_of_cons; [left | right; by apply IH].
Qed.

Lemma word_plain (w : cstring) :
  w ∈ true_values ++ false_values -> (EQUALS ∉ w) /\ (DQUOTE ∉ w).
Proof.
  assert (Forall (fun w => (EQUALS ∉ w) /\ (DQUOTE ∉ w)) (true_values ++ false_values))
    as H by decide_now.
  intros Hw. by apply (proj1 (Forall_forall _ _) H).
Qed.

(** The text of a stripped buffer: the same text, or the text cut after
    the quote that follows its first [=]. *)
Lemma strip_text b :
  cstr (strip b) = cstr b \/
  exists k q, strchr (cstr b) EQUALS = Some k /\ cstr b !! S k = Some DQUOTE /\
              k + 2 <= q /\ cstr (strip b) = take q (cstr b).
Proof.
  destruct (strchr (cstr b) EQUALS) as [k|] eqn:Hk;
    [|left; by rewrite strip_plain by (intros ?; congruence)].
  destruct (decide (b !! S k = Some DQUOTE)) as [Hq|Hq];
    [|left; by rewrite strip_plain by (intros ?; congruence)].
  pose proof (close_of_bounds b k Hk Hq) as Hb.
  right. exists k, (close_of b k). repeat split; [|lia|by apply cstr_strip].
  apply cstr_lookup_inside; [lia | done | done].
Qed.

(** What the read-only loops read of an argument is the same before and
    after the edit. *)
Lemma strip_unseen {double} (atof : cstring -> double) b flag :
  stops_at_equals atof -> DQUOTE ∉ flag ->
  let t := cstr b in
  let t' := cstr (strip b) in
  bool_decide (t' = flag) = bool_decide (t = flag) /\
  bool_decide (flag `prefix_of` t') = bool_decide (flag `prefix_of` t) /\
  strchr t' EQUALS = strchr t EQUALS /\
  first_byte t' = first_byte t /\
  atof t' = atof t /\
  bool_decide (lower t' ∈ true_values) = bool_decide (lower t ∈ true_values) /\
  bool_decide (lower t' ∈ false_values) = bool_decide (lower t ∈ false_values) /\
  (forall k, strchr t EQUALS = Some k ->
     atof (drop (S k) t') = atof (drop (S k) t) /\
     bool_decide (drop (S k) t' ∈ true_values)
     = bool_decide (drop (S k) t ∈ true_values) /\
     bool_decide (drop (S k) t' ∈ false_values)
     = bool_decide (drop (S k) t ∈ false_values)).
Proof.
  intros [Hstop Hquote] Hf t t'. subst t t'.
  destruct (strip_same_text b flag Hf) as [He Hp].
  split; [by apply bool_decide_ext|]. split; [by apply bool_decide_ext|].
  split; [apply strip_strchr|].
  destruct (strip_text b) as [->|(k & q & Hk & Hq & Hkq & ->)]; [done|].
  assert (EQUALS ∈ cstr b) as Hin by (apply elem_of_strchr; eauto).
  assert (EQUALS ∈ take q (cstr b)) as Hin'.
  { apply elem_of_strchr. exists k. apply strchr_take; [done | lia]. }
  assert (forall tbl s, tbl = true_values \/ tbl = false_values ->
            EQUALS ∈ s -> bool_decide (lower s ∈ tbl) = false) as Hlow.
  { intros tbl s Ht Hs. apply bool_decide_eq_false_2. intros Hw.
    apply lower_equals in Hs.
    assert (lower s ∈ true_values ++ false_values) as Hw'
      by (apply elem_of_app; destruct Ht as [->| ->]; tauto).
    by apply word_plain in Hw' as [? _]. }
  assert (forall tbl s, tbl = true_values \/ tbl = false_values ->
            head s = Some DQUOTE -> bool_decide (s ∈ tbl) = false) as Hval.
  { intros tbl s Ht Hs. apply bool_decide_eq_false_2. intros Hw.
    assert (s ∈ true_values ++ false_values) as Hw'
      by (apply elem_of_app; destruct Ht as [->| ->]; tauto).
    apply word_plain in Hw' as [_ Hn]. apply Hn.
    destruct s as [|c s]; [done|]. injection Hs as ->. left. }
  split; [|split; [by apply (Hstop _ q k); [|lia]|]].
  { destruct (cstr b) as [|c t]; [done|]. by destruct q; [lia|]. }
  split; [by rewrite !Hlow by auto|]. split; [by rewrite !Hlow by auto|].
  intros k' Hk'. assert (k' = k) as -> by congruence.
  assert (head (drop (S k) (cstr b)) = Some DQUOTE) as Hh
    by (by rewrite head_lookup, lookup_drop, Nat.add_0_r).
  assert (head (drop (S k) (take q (cstr b))) = Some DQUOTE) as Hh'.
  { rewrite head_lookup, lookup_drop, Nat.add_0_r, lookup_take_lt by lia. done. }
  split; [|by rewrite !Hval by auto].
  destruct (drop (S k) (cstr b)) as [|c1 t1]; [done|].
  destruct (drop (S k) (take q (cstr b))) as [|c2 t2]; [done|].
  injection Hh as ->. injection Hh' as ->. apply Hquote.
Qed.

Lemma float_body_evolved {double} (atof : cstring -> double) st s flag i result :
  stops_at_equals atof -> DQUOTE ∉ flag -> evolved st s ->
  fst (float_body atof flag i result s) = fst (float_body atof flag i result st).
Proof.
  intros Hstop Hf (Hc & _ & Hb). rewrite !float_body_fst. cbn zeta.
  rewrite Hc, !arg_at_cstr.
  assert (first_byte (cstr (arg_buf s (i + 1)))
          = first_byte (cstr (arg_buf st (i + 1))) /\
          atof (cstr (arg_buf s (i + 1)))
          = atof (cstr (arg_buf st (i + 1)))) as [-> ->].
  { destruct (Hb (i + 1)) as [->| ->]; [done|].
    destruct (strip_unseen atof (arg_buf st (i + 1)) flag Hstop Hf)
      as (_ & _ & _ & H1 & H2 & _). done. }
  destruct (Hb i) as [->| ->]; [done|].
  destruct (strip_unseen atof (arg_buf st i) flag Hstop Hf)
    as (-> & -> & -> & _ & _ & _ & _ & Hv).
  destruct (bool_decide (cstr (arg_buf st i) = flag)); [done|].
  destruct (bool_decide (flag `prefix_of` cstr (arg_buf st i))); [|done].
  destruct (strchr (cstr (arg_buf st i)) EQUALS) as [k|] eqn:Hk; [|done].
  by destruct (Hv k eq_refl) as [-> _].
Qed.

Lemma bool_body_evolved st s flag i :
  DQUOTE ∉ flag -> evolved st s ->
  fst (bool_body flag i s) = fst (bool_body flag i st).
Proof.
  intros Hf (Hc & _ & Hb). rewrite !bool_body_fst. cbn zeta.
  rewrite Hc, !arg_at_cstr.
  assert (bool_decide (lower (cstr (arg_buf s (i + 1))) ∈ true_values)
          = bool_decide (lower (cstr (arg_buf st (i + 1))) ∈ true_values) /\
          bool_decide (lower (cstr (arg_buf s (i + 1))) ∈ false_values)
          = bool_decide (lower (cstr (arg_buf st (i + 1))) ∈ false_values))
    as [-> ->].
  { destruct (Hb (i + 1)) as [->| ->]; [done|].
    destruct (strip_unseen atoi (arg_buf st (i + 1)) flag atoi_stops Hf)
      as (_ & _ & _ & _ & _ & H1 & H2 & _). done. }
  destruct (Hb i) as [->| ->]; [done|].
  destruct (strip_unseen atoi (arg_buf st i) flag atoi_stops Hf)
    as (-> & -> & -> & _ & _ & _ & _ & Hv).
  destruct (bool_decide (cstr (arg_buf st i) = flag)); [done|].
  destruct (bool_decide (flag `prefix_of` cstr (arg_buf st i))); [|done].
  destruct (strchr (cstr (arg_buf st i)) EQUALS) as [k|] eqn:Hk; [|done].
  by destruct (Hv k eq_refl) as (_ & -> & ->).
Qed.

Lemma args_int_float arg : args_int arg = args_float 0%Z atoi arg.
Proof. reflexivity. Qed.

(** X7 (the edit of [args_string] is not seen by the other queries).
    After any call of [args_string], [args_bool] and [args_int] asked
    with a query string without quote character return what they would
    have returned before it, and so does [args_float] for any [atof]
    that reads no further than an [=] and nothing of a text starting
    with a quote: the order in which a program asks its queries does not
    matter to them. *)
Theorem string_edit_unseen {double : Type} (dzero : double)
    (atof : cstring -> double) (st : state) (sarg arg : cstring) :
  DQUOTE ∉ arg ->
  let s := snd (args_string sarg st) in
  fst (args_bool arg s) = fst (args_bool arg st) /\
  fst (args_int arg s) = fst (args_int arg st) /\
  (stops_at_equals atof ->
   fst (args_float dzero atof arg s) = fst (args_float dzero atof arg st)).
Proof.
  intros Ha s.
  assert (evolved st s) as Hev.
  { subst s. rewrite args_string_scan. apply evolved_scan, evolved_refl. }
  pose proof (proj1 Hev) as Hc.
  pose proof (scan_order_no_quote (args__argc st) arg Ha) as Hq.
  assert (forall (D : Type) (z : D) (p : cstring -> D), stops_at_equals p ->
            fst (args_float z p arg s) = fst (args_float z p arg st)) as Hfloat.
  { intros D z p Hp. rewrite !args_float_scan, Hc.
    apply (foldM_ro_ext (fun q => float_body p q.1 q.2));
      [intros x a; apply float_body_ro|].
    eapply Forall_impl; [exact Hq|]. intros q Hnq a.
    by apply float_body_evolved. }
  split; [|split].
  - rewrite !args_bool_scan, Hc. cbn [fst]. f_equal.
    apply (firstM_ro_ext (fun q => bool_body q.1 q.2));
      [intros x; apply bool_body_ro|].
    eapply Forall_impl; [exact Hq|]. intros q Hnq. by apply bool_body_evolved.
  - rewrite !args_int_float. apply Hfloat, atoi_stops.
  - apply Hfloat.
Qed.

Lemma string_edit_unseen_witness :
  let st := parsed [lit "prog"; lit "-n"; lit "5=" ++ [DQUOTE] ++ lit "a" ++ [DQUOTE] ++ lit "b";
                    lit "--v=" ++ [DQUOTE] ++ lit "1" ++ [DQUOTE]] in
  let s := snd (args_string (lit "5|--v") st) in
  s <> st /\
  fst (args_int (lit "-n") s) = 5%Z /\
  fst (args_bool (lit "--v") s) = fst (args_bool (lit "--v") st) /\
  fst (args_float 0%Z atoi (lit "-n") s) = 5%Z.
Proof.
  intros st s. split; [discriminate|].
  destruct (string_edit_unseen 0%Z atoi st (lit "5|--v") (lit "-n")) as (_ & Hi & Hf);
    [decide_now|].
  destruct (string_edit_unseen 0%Z atoi st (lit "5|--v") (lit "--v")) as (Hb & _ & _);
    [decide_now|].
  split; [exact Hi|]. split; [exact Hb|]. exact (Hf atoi_stops).
Defined.

(** ** [args_print] *)

Lemma print_body_ro i out : read_only (print_body i out).
Proof. unfold print_body. ro_cases. Qed.

Lemma args_print_ro : read_only args_print.
Proof.
  intros st. unfold args_print, bind, get_argc. cbn [fst snd].
  apply ro_foldM. intros i out. apply print_body_ro.
Qed.

Lemma print_loop st (argv : list buffer) n out :
  n + length argv <= length (args__argv st) ->
  argv = drop n (take (n + length argv) (args__argv st)) ->
  fst (foldM print_body (seq n (length argv)) out st) =
  out ++ concat (imap (fun i b => lit "Argument " ++ fmt_zu (n + i) ++ lit ": "
                                  ++ cstr b ++ [LF]) argv).
Proof.
  revert n out. induction argv as [|b argv IH]; intros n out Hn Hd.
  - simpl. by rewrite app_nil_r.
  - cbn [length seq foldM]. unfold bind. rewrite print_body_ro.
    assert (args__argv st !! n = Some b) as Hb.
    { apply (f_equal (fun l => l !! 0)) in Hd.
      rewrite lookup_drop, lookup_take_lt, Nat.add_0_r in Hd by (simpl; lia).
      done. }
    rewrite IH.
    + unfold print_body, bind, load, ret, deref. cbn [fst snd imap concat].
      rewrite (arg_buf_lookup st n b Hb), drop_0, Nat.add_0_r.
      rewrite <- !(assoc_L (++)). do 7 f_equal.
      apply imap_ext. intros i x _. cbn. by rewrite Nat.add_succ_r.
    + cbn [length] in Hn. lia.
    + apply (f_equal (drop 1)) in Hd. cbn [drop] in Hd. rewrite drop_0 in Hd.
      etrans; [exact Hd|]. rewrite drop_drop. f_equal; [lia|]. f_equal.
      cbn [length]. lia.
Qed.

(** X8 ([args_print]).  [args_print] writes nothing to the store; when
    [args__argv] holds at least [args__argc] buffers its output is one
    line per registered argument, the program name at index 0 included,
    in the order of the vector, each with its index and the text of the
    argument up to its terminator. *)
Theorem args_print_lists_all (st : state) :
  args__argc st <= length (args__argv st) ->
  snd (args_print st) = st /\
  fst (args_print st) =
  concat (imap (fun i b => lit "Argument " ++ fmt_zu i ++ lit ": " ++ cstr b ++ [LF])
               (take (args__argc st) (args__argv st))).
Proof.
  intros Hc. split; [apply args_print_ro|].
  unfold args_print, bind, get_argc. cbn [fst snd].
  pose proof (print_loop st (take (args__argc st) (args__argv st)) 0 []) as H.
  rewrite length_take_le in H by done. apply H; [done|]. by rewrite drop_0.
Qed.

Lemma args_print_lists_all_witness :
  let st := parsed [lit "prog"; lit "-n"; lit "a b"] in
  snd (args_print st) = st /\
  fst (args_print st) =
  lit "Argument 0: prog" ++ [LF] ++ lit "Argument 1: -n" ++ [LF]
  ++ lit "Argument 2: a b" ++ [LF].
Proof.
  intros st.
  destruct (args_print_lists_all st) as [Hro Hout]; [vm_compute; lia|].
  split; [exact Hro | exact Hout].
Defined.

(** ** The program of [example.c] *)

(** X9 ([main] of [example.c]).  The four queries of [main] do not
    influence one another: each result is the one the query gives on the
    vector as registered, whatever the statics held before, because the
    three queries asked first write nothing.  With the help flag set the
    output is the help text alone; otherwise it is the values that are
    not zero or null, the string read from the store [args_string]
    leaves; the exit status is 0 in every case. *)
Theorem main_report {double : Type} (dzero : double) (atof : cstring -> double)
    (nonzero : double -> bool) (fmt_f : double -> cstring)
    (argc : nat) (argv : list buffer) (st : state) :
  let st0 := State argc argv in
  let show_help := fst (args_bool (lit "-h|--help") st0) in
  let int_number := fst (args_int (lit "-i|--int") st0) in
  let float_number := fst (args_float dzero atof (lit "-f|--float") st0) in
  let r := args_string (lit "-s|--string") st0 in
  let out := fst (fst (main dzero atof nonzero fmt_f argc argv st)) in
  snd (fst (main dzero atof nonzero fmt_f argc argv st)) = 0%Z /\
  snd (main dzero atof nonzero fmt_f argc argv st) = snd r /\
  (show_help = true -> out = show_help_message) /\
  (show_help = false ->
   out = (if (int_number =? 0)%Z then []
          else lit "Int: " ++ fmt_d int_number ++ [LF])
         ++ (if nonzero float_number
             then lit "Float: " ++ fmt_f float_number ++ [LF] else [])
         ++ match string_at (snd r) (fst r) with
            | Some text => lit "String: " ++ text ++ [LF]
            | None => []
            end).
Proof.
  intros st0 show_help int_number float_number r out.
  subst out. unfold main, bind, args_parse. cbn [fst snd]. fold st0.
  rewrite (args_bool_ro _ st0), (args_int_ro _ st0), (args_float_ro _ _ _ st0).
  fold show_help int_number float_number r.
  destruct show_help.
  { repeat split; try done. }
  destruct (negb (int_number =? 0)%Z || nonzero float_number
            || bool_decide (is_Some (fst r))) eqn:E.
  - unfold print_values, bind, ret, load. cbn [fst snd].
    repeat split; try done; [by destruct (fst r)|].
    intros _. unfold string_at. by destruct (fst r).
  - apply orb_false_iff in E as [E E3]. apply orb_false_iff in E as [E1 E2].
    apply negb_false_iff in E1. apply bool_decide_eq_false in E3.
    cbn [ret fst snd]. repeat split; try done. intros _.
    rewrite E1, E2. destruct (fst r) as [p|]; [exfalso; apply E3; eauto | done].
Qed.

Lemma main_report_witness :
  let run := main 0%Z atoi (fun z => negb (z =? 0)%Z) fmt_d 5
               (argv_of [lit "prog"; lit "--int"; lit "69420"; lit "--float=0";
                         lit "--string=" ++ [DQUOTE] ++ lit "Hello, World!" ++ [DQUOTE]])
               initial in
  fst run = (lit "Int: 69420" ++ [LF] ++ lit "String: Hello, World!" ++ [LF], 0%Z).
Proof.
  intros run.
  destruct (main_report 0%Z atoi (fun z => negb (z =? 0)%Z) fmt_d 5
              (argv_of [lit "prog"; lit "--int"; lit "69420"; lit "--float=0";
                        lit "--string=" ++ [DQUOTE] ++ lit "Hello, World!" ++ [DQUOTE]])
              initial) as (Hexit & _ & _ & Hout).
  fold run in Hexit, Hout. destruct run as [[out status] s]. cbn [fst snd] in *.
  rewrite Hexit, (Hout eq_refl). reflexivity.
Defined.

(** X10 (the help flag wins).  On a command line that ends with [-h],
    where no earlier argument is [-h] or starts with it and holds an
    [=], the program prints the help text and nothing else, whatever
    values the other arguments give, and exits with status 0. *)
Theorem main_help_last {double : Type} (dzero : double) (atof : cstring -> double)
    (nonzero : double -> bool) (fmt_f : double -> cstring)
    (prog : cstring) (rest : list cstring) (st : state) :
  Forall (fun a => (NUL ∉ a) /\ ~ matches a (lit "-h")) rest ->
  let l := prog :: rest ++ [lit "-h"] in
  fst (main dzero atof nonzero fmt_f (length l) (argv_of l) st)
  = (show_help_message, 0%Z).
Proof.
  intros Hrest l.
  assert (alias (lit "-h")) as HF by (repeat split; [discriminate | decide_now | decide_now]).
  destruct (trailing_flag_scan prog rest (lit "-h") HF Hrest) as (_ & Hu & Ha & Hi).
  fold l in Hu, Ha, Hi.
  assert (scan_order (args__argc (parsed l)) (lit "-h|--help")
          = (pair (lit "-h") <$> seq 1 (length rest))
            ++ (lit "-h", S (length rest))
               :: (pair (lit "--help") <$> indices (args__argc (parsed l)))) as Hs.
  { unfold scan_order.
    change (tokens (lit "-h|--help")) with [lit "-h"; lit "--help"].
    rewrite !bind_cons. change ([] ≫= _) with (@nil (cstring * nat)).
    rewrite app_nil_r, parsed_argc. unfold indices.
    subst l. cbn [length]. rewrite length_app. cbn [length].
    replace (S (length rest + 1) - 1) with (S (length rest)) by lia.
    by rewrite seq_S, fmap_app, <- (assoc_L (++)). }
  assert (args_bool (lit "-h|--help") (parsed l) = (true, parsed l)) as Hb.
  { rewrite (args_bool_first _ _ _ _ _ Hs). cbn [fst snd].
    - rewrite (bool_body_exact _ _ _ Ha). apply Nat.ltb_ge in Hi. by rewrite Hi.
    - eapply Forall_impl; [exact Hu|]. apply unmatched_undecided. }
  unfold main, bind, args_parse. cbn [fst snd].
  change (State (length l) (argv_of l)) with (parsed l). by rewrite Hb.
Qed.

Lemma main_help_last_witness :
  fst (main 0%Z atoi (fun z => negb (z =? 0)%Z) fmt_d 5
         (argv_of [lit "prog"; lit "--int"; lit "5"; lit "--string=x"; lit "-h"])
         initial)
  = (show_help_message, 0%Z).
Proof.
  apply (main_help_last 0%Z atoi (fun z => negb (z =? 0)%Z) fmt_d (lit "prog")
           [lit "--int"; lit "5"; lit "--string=x"] initial).
  repeat constructor; decide_now.
Defined.

(** ** Any number of string queries *)

Lemma evolved_args_string st s arg :
  evolved st s -> evolved st (snd (args_string arg s)).
Proof. intros He. rewrite args_string_scan. by apply evolved_scan. Qed.

Lemma evolved_queries st s (specs : list cstring) :
  evolved st s ->
  evolved st (foldl (fun s arg => snd (args_string arg s)) s specs).
Proof.
  revert s. induction specs as [|arg specs IH]; intros s He; [done|].
  simpl. by apply IH, evolved_args_string.
Qed.

(** X11 (string queries strip an argument once).  Whatever string
    queries a program asks, and in whatever order, [args__argc] and the
    number of buffers stay as registered and each buffer is either as
    registered or differs from it in one byte: the closing quote of the
    value that follows its first [=] has become the terminator.  Later
    queries never cut an argument further. *)
Theorem string_queries_strip_once (st : state) (specs : list cstring) :
  let s := foldl (fun s arg => snd (args_string arg s)) st specs in
  args__argc s = args__argc st /\
  length (args__argv s) = length (args__argv st) /\
  forall i b, args__argv st !! i = Some b ->
    args__argv s !! i = Some b \/
    exists k, strchr (cstr b) EQUALS = Some k /\
              b !! S k = Some DQUOTE /\
              b !! close_of b k = Some DQUOTE /\
              args__argv s !! i = Some (<[close_of b k := NUL]> b).
Proof.
  intros s. destruct (evolved_queries st st specs (evolved_refl st)) as (Hc & Hl & Hb).
  fold s in Hc, Hl, Hb. split; [done|]. split; [done|].
  intros i b Hib. pose proof (arg_buf_lookup st i b Hib) as Eb.
  assert (i < length (args__argv st)) as Hi by (by eapply lookup_lt_Some).
  rewrite lookup_arg_buf by lia.
  destruct (Hb i) as [->| ->]; rewrite Eb; [by left|].
  destruct (strip_frame b) as [->|(k & Hk & Hq & Hcl & ->)]; [by left|].
  right. by exists k.
Qed.

Lemma string_queries_strip_once_witness :
  let st := parsed [lit "prog"; lit "--name=" ++ [DQUOTE] ++ lit "a" ++ [DQUOTE]
                                ++ lit "b" ++ [DQUOTE] ++ lit "c"] in
  args__argv (foldl (fun s arg => snd (args_string arg s)) st
                [lit "--name"; lit "-x|--name"; lit "--name"])
  = [lit "prog" ++ [NUL];
     lit "--name=" ++ [DQUOTE] ++ lit "a" ++ [NUL] ++ lit "b" ++ [DQUOTE]
     ++ lit "c" ++ [NUL]].
Proof.
  intros st.
  destruct (string_queries_strip_once st
              [lit "--name"; lit "-x|--name"; lit "--name"]) as (_ & _ & Hb).
  destruct (Hb 1 (lit "--name=" ++ [DQUOTE] ++ lit "a" ++ [DQUOTE]
                  ++ lit "b" ++ [DQUOTE] ++ lit "c" ++ [NUL]) eq_refl)
    as [Hsame|(k & Hk & _)].
  - vm_compute in Hsame. discriminate Hsame.
  - reflexivity.
Defined.
